(** * OrderProcessingTool: the OCR-to-CSV extractor of [main3.py]

    A shallow embedding of [OcrCsvExtractor] (src/main3.py) and the
    properties of its row grouper, cell normaliser, CSV assembler,
    section merger and orchestration.

    Modelling choices.
    - Python [str] is a sequence of Unicode code points: [str := list N].
    - The geometry of a detection (centres, heights, tolerances) is
      Python [float]; the row grouper only compares, subtracts, halves
      and scales these numbers, so they are modelled as exact rationals
      [Q] (no rounding, no infinities, no NaN).
    - The resize step of [preprocess] truncates a float product with
      [int(...)]; there binary64 rounding decides the result, so that
      computation is carried out on the kernel's primitive floats.
    - [sorted] and [list.sort] are stable sorts; on a total preorder the
      result of a stable sort is unique, so a stable insertion sort is
      used as their model.
    - Exceptions are values of [exn]; the external world (image
      decoding, OpenCV filters, the OCR engine) is a record of
      functions, and the calls to the decoder ([cv2.imread]) and to the
      engine ([readtext]) are logged in a trace. Building the engine
      ([easyocr.Reader] in [__init__]) happens before [extract_csv] and
      is not part of the model. *)

From Stdlib Require Import Strings.String Strings.Ascii.
From Stdlib Require Import Floats.
From Stdlib Require Import List Bool Arith ZArith NArith QArith Qabs Lia Lqa.
From Stdlib Require Import Sorting.Sorted Sorting.Permutation.
Import ListNotations.

Set Implicit Arguments.

(** ** Python primitives *)

(** [a < b] on numbers. *)
Definition Qltb (a b : Q) : bool := negb (Qle_bool b a).

(** [max(a, b)]: the first argument is kept unless a later one is
    strictly greater. *)
Definition py_max (a b : Q) : Q := if Qltb a b then b else a.

(** [min(xs)] of a non-empty sequence: the first minimal element. *)
Definition py_min (x : Q) (xs : list Q) : Q :=
  fold_left (fun m y => if Qltb y m then y else m) xs x.

(** [sum(xs)]: starts from 0 and adds from the left. *)
Definition py_sum (xs : list Q) : Q := fold_left Qplus xs 0.

Section StableSort.
Variable A : Type.
(** [ltb x y]: the key of [x] is strictly below the key of [y]. *)
Variable ltb : A -> A -> bool.

(** [x] comes from the left of everything in [l], so it stays in
    front of every element it is not strictly greater than. *)
Fixpoint insert_sorted (x : A) (l : list A) : list A :=
  match l with
  | [] => [x]
  | y :: l' => if ltb y x then y :: insert_sorted x l' else x :: l
  end.

Definition sorted_with (l : list A) : list A :=
  fold_right insert_sorted [] l.
End StableSort.

(** [sorted(l, key=key)] for a numeric key. *)
Definition sorted_by (A : Type) (key : A -> Q) (l : list A) : list A :=
  sorted_with (fun x y => Qltb (key x) (key y)) l.

(** ** Strings *)

Definition char := N.
Definition str := list char.

(** An ASCII literal as a [str]. *)
Definition lit (s : string) : str :=
  map N_of_ascii (list_ascii_of_string s).

(** [c.isspace()], the characters [str.split()] and [str.strip()] treat
    as white space. *)
Definition is_space (c : char) : bool :=
  ((9 <=? c) && (c <=? 13) || (28 <=? c) && (c <=? 32)
   || (c =? 133) || (c =? 160) || (c =? 5760)
   || (8192 <=? c) && (c <=? 8202)
   || (c =? 8232) || (c =? 8233) || (c =? 8239) || (c =? 8287)
   || (c =? 12288))%N.

Definition NBSP : char := 160%N.
Definition SPACE : char := 32%N.
Definition COLON : char := 58%N.
Definition EM_DASH : char := 8212%N.
Definition EN_DASH : char := 8211%N.

(** [s.lstrip()], [s.rstrip()], [s.strip()]. *)
Fixpoint lstrip (s : str) : str :=
  match s with
  | c :: s' => if is_space c then lstrip s' else s
  | [] => []
  end.

Definition rstrip (s : str) : str := rev (lstrip (rev s)).

Definition strip (s : str) : str := rstrip (lstrip s).

(** [s.replace(a, b)] for single characters. *)
Definition replace_char (a b : char) (s : str) : str :=
  map (fun c => if (c =? a)%N then b else c) s.

(** [s.split()]: the maximal runs of non-space characters, in order.
    [cur] holds the run being read, last character first. *)
Fixpoint split_ws_from (cur : str) (s : str) : list str :=
  match s with
  | [] => match cur with [] => [] | _ => [rev cur] end
  | c :: s' =>
      if is_space c then
        match cur with
        | [] => split_ws_from [] s'
        | _ => rev cur :: split_ws_from [] s'
        end
      else split_ws_from (c :: cur) s'
  end.

Definition split_ws (s : str) : list str := split_ws_from [] s.

(** [sep.join(parts)]. *)
Fixpoint join (sep : str) (parts : list str) : str :=
  match parts with
  | [] => []
  | [p] => p
  | p :: ps => p ++ sep ++ join sep ps
  end.

(** [s.startswith(p)], returning what follows the prefix. *)
Fixpoint strip_prefix (p s : str) : option str :=
  match p, s with
  | [], _ => Some s
  | x :: p', y :: s' => if (x =? y)%N then strip_prefix p' s' else None
  | _ :: _, [] => None
  end.

(** [s.split(sep, 1)] when [sep in s]: the text before and after the
    first occurrence of [sep]; [None] when [sep] does not occur. *)
Fixpoint split_once (sep s : str) : option (str * str) :=
  match strip_prefix sep s with
  | Some rest => Some ([], rest)
  | None =>
      match s with
      | [] => None
      | c :: s' =>
          match split_once sep s' with
          | Some (k, v) => Some (c :: k, v)
          | None => None
          end
      end
  end.

(** [s.endswith(':')]. *)
Definition ends_with_colon (s : str) : bool :=
  match rev s with
  | c :: _ => (c =? COLON)%N
  | [] => false
  end.

(** [s.rstrip(':')]: every trailing colon is removed. *)
Fixpoint drop_colons (s : str) : str :=
  match s with
  | c :: s' => if (c =? COLON)%N then drop_colons s' else s
  | [] => []
  end.

Definition rstrip_colon (s : str) : str := rev (drop_colons (rev s)).

(** Truth value of a string: non-empty. *)
Definition truthy (s : str) : bool :=
  match s with [] => false | _ => true end.

(** ** Detections and the layout reader *)

Definition point := (Q * Q)%type.

(** The four corners of a box, in the order the OCR engine gives them. *)
Record quad := { p0 : point; p1 : point; p2 : point; p3 : point }.

(** One item of [read_layout]: the dictionary with keys ['text'],
    ['box'], ['center_y'], ['center_x'], ['height'], ['x_min']. *)
Record detection := {
  text : str;
  box : quad;
  center_y : Q;
  center_x : Q;
  height : Q;
  x_min : Q
}.

(** A triple [(box, text, conf)] of [readtext]. *)
Definition ocr_result := (quad * str * Q)%type.

Definition _box_center (b : quad) : Q * Q :=
  let xs := [fst (p0 b); fst (p1 b); fst (p2 b); fst (p3 b)] in
  let ys := [snd (p0 b); snd (p1 b); snd (p2 b); snd (p3 b)] in
  (py_sum xs / 4, py_sum ys / 4).

Definition _box_height (b : quad) : Q :=
  (Qabs (snd (p0 b) - snd (p3 b)) + Qabs (snd (p1 b) - snd (p2 b))) / 2.

(** The body of the loop of [read_layout]: [None] stands for [continue]. *)
Definition layout_item (r : ocr_result) : option detection :=
  let '(b, t, _) := r in
  if truthy (strip t) then
    let '(cx, cy) := _box_center b in
    Some {| text := strip t;
            box := b;
            center_y := cy;
            center_x := cx;
            height := py_max (_box_height b) 1;
            x_min := py_min (fst (p0 b)) [fst (p1 b); fst (p2 b); fst (p3 b)] |}
  else None.

(** [(a1, b1) < (a2, b2)] on tuples: the first components that differ
    decide. *)
Definition reading_ltb (d e : detection) : bool :=
  if Qeq_bool (center_y d) (center_y e)
  then Qltb (x_min d) (x_min e)
  else Qltb (center_y d) (center_y e).

(** [read_layout] after the call to the engine: [results] is what
    [readtext] returned. *)
Definition layout_of (results : list ocr_result) : list detection :=
  sorted_with reading_ltb
    (flat_map (fun r => match layout_item r with
                        | Some d => [d]
                        | None => []
                        end) results).

(** ** Row reconstruction *)

(** The variables of the loop of [group_rows]. *)
Record scan_state := {
  rows : list (list detection);
  current : list detection;
  last_y : option Q
}.

Definition scan_init : scan_state :=
  {| rows := []; current := []; last_y := None |}.

Definition median_h (items : list detection) : Q :=
  let heights := map height items in
  nth (length heights / 2) (sorted_by (fun h => h) heights) 0.

Definition y_tol (items : list detection) : Q :=
  py_max 6 (median_h items * (6 # 10)).

(** One iteration of [for it in items]. *)
Definition scan_step (tol : Q) (st : scan_state) (it : detection)
  : scan_state :=
  match last_y st with
  | None =>
      {| rows := rows st; current := [it]; last_y := Some (center_y it) |}
  | Some ly =>
      if Qle_bool (Qabs (center_y it - ly)) tol then
        {| rows := rows st;
           current := current st ++ [it];
           last_y := Some ((ly + center_y it) / 2) |}
      else
        {| rows := rows st ++ [sorted_by x_min (current st)];
           current := [it];
           last_y := Some (center_y it) |}
  end.

(** The state of the loop after the items of [seen]. *)
Definition scan (tol : Q) (seen : list detection) : scan_state :=
  fold_left (scan_step tol) seen scan_init.

(** The statements after the loop. *)
Definition scan_finish (st : scan_state) : list (list detection) :=
  match current st with
  | [] => rows st
  | _ => rows st ++ [sorted_by x_min (current st)]
  end.

Definition group_rows (items : list detection) : list (list detection) :=
  match items with
  | [] => []
  | _ => scan_finish (scan (y_tol items) items)
  end.

(** ** Cell normalisation and key/value splitting *)

Definition _normalize_cell (t : str) : str :=
  let t1 := strip (replace_char NBSP SPACE t) in
  join [SPACE] (split_ws t1).

(** The separators tried when the text has no colon. *)
Definition SEPARATORS : list str :=
  [[SPACE; 45%N; SPACE]; [SPACE; EM_DASH; SPACE]; [EN_DASH]].

(** [for sep in seps: if sep in text: ... return]. *)
Fixpoint split_on_separators (seps : list str) (t : str)
  : option (str * str) :=
  match seps with
  | [] => None
  | sep :: more =>
      match split_once sep t with
      | Some (k, v) => Some (strip k, strip v)
      | None => split_on_separators more t
      end
  end.

Definition _split_key_value (t : str) : str * str :=
  match split_once [COLON] t with
  | Some (k, v) => (strip k, strip v)
  | None =>
      match split_on_separators SEPARATORS t with
      | Some kv => kv
      | None => (strip t, [])
      end
  end.

(** ** CSV assembly *)

Inductive exn :=
| FileNotFoundError (msg : str)
| IndexError
| ValueError
| ZeroDivisionError.

Definition result (A : Type) := (exn + A)%type.

Definition total_len (texts : list str) : Z :=
  fold_left Z.add (map (fun t => Z.of_nat (length t)) texts) 0%Z.

(** The body of [for row_items in rows]: the CSV row appended for one
    row of detections. *)
Definition csv_row (row_items : list detection) : result (list str) :=
  let texts := map (fun it => _normalize_cell (text it)) row_items in
  let avg_len :=
    inject_Z (total_len texts)
    / inject_Z (Z.max (Z.of_nat (length texts)) 1) in
  if (3 <=? length texts)%nat && Qle_bool avg_len 12 then inr texts
  else if (length texts =? 1)%nat then
    match nth_error texts 0 with
    | None => inl IndexError
    | Some t0 =>
        let '(key, val) := _split_key_value t0 in
        if truthy key && (truthy val || ends_with_colon key)
        then inr [rstrip_colon key; val]
        else inr [t0]
    end
  else
    match nth_error texts 0 with
    | None => inl IndexError
    | Some first =>
        if ends_with_colon first && (2 <=? length texts)%nat
        then inr [rstrip_colon first; join [SPACE] (skipn 1 texts)]
        else inr texts
    end.

(** The first loop of [rows_to_csv]; an exception ends it. *)
Fixpoint csv_rows_of (rows : list (list detection))
  : result (list (list str)) :=
  match rows with
  | [] => inr []
  | row_items :: more =>
      match csv_row row_items with
      | inl e => inl e
      | inr r =>
          match csv_rows_of more with
          | inl e => inl e
          | inr rs => inr (r :: rs)
          end
      end
  end.

Definition SECTION_TAG : str := lit "[Section] ".

(** One iteration of [for i, r in enumerate(csv_rows)]; the state is
    [(merged, skip_next)]. *)
Definition merge_step (csv_rows : list (list str))
  (st : list (list str) * bool) (ir : nat * list str)
  : list (list str) * bool :=
  let '(merged, skip_next) := st in
  let '(i, r) := ir in
  if skip_next then (merged, false)
  else if (length r =? 1)%nat
          && (i + 1 <? length csv_rows)%nat
          && (3 <=? length (nth (i + 1) csv_rows []))%nat
  then
    let title := nth 0 r [] in
    (merged ++ [(SECTION_TAG ++ title) :: nth (i + 1) csv_rows []], true)
  else (merged ++ [r], false).

Definition enumerate (A : Type) (l : list A) : list (nat * A) :=
  combine (seq 0 (length l)) l.

Definition merge_sections (csv_rows : list (list str)) : list (list str) :=
  fst (fold_left (merge_step csv_rows) (enumerate csv_rows) ([], false)).

Definition rows_to_csv (rows : list (list detection))
  : result (list (list str)) :=
  match csv_rows_of rows with
  | inl e => inl e
  | inr csv_rows => inr (merge_sections csv_rows)
  end.

(** ** Pre-processing *)

(** [float(z)] for an integer that fits 63 bits. *)
Definition float_of_int (z : Z) : float :=
  if (z <? 0)%Z
  then PrimFloat.opp (PrimFloat.of_uint63 (Uint63.of_Z (- z)))
  else PrimFloat.of_uint63 (Uint63.of_Z z).

(** [int(f)]: truncation towards zero; [None] for infinities and NaN,
    where Python raises. *)
Definition int_of_float (f : float) : option Z :=
  match Prim2SF f with
  | S754_zero _ => Some 0%Z
  | S754_finite s m e =>
      let a := if (0 <=? e)%Z
               then (Zpos m * 2 ^ e)%Z
               else (Zpos m / 2 ^ (- e))%Z in
      Some (if s then (- a)%Z else a)
  | _ => None
  end.

(** The size [(width, height)] that [preprocess] passes to [cv2.resize]
    for a cleaned image of [h] rows and [w] columns; [None] when the
    image is returned as it is. *)
Definition upscaled_size (h w : Z) : result (option (Z * Z)) :=
  if (Z.max h w <? 1400)%Z then
    if (Z.max h w =? 0)%Z then inl ZeroDivisionError
    else
      let scale := (1400.0 / float_of_int (Z.max h w))%float in
      match int_of_float (float_of_int w * scale)%float,
            int_of_float (float_of_int h * scale)%float with
      | Some nw, Some nh => inr (Some (nw, nh))
      | _, _ => inl ValueError
      end
  else inr None.

(** ** The outside world and the pipeline *)

Inductive color_conversion := COLOR_BGR2GRAY | COLOR_GRAY2RGB | COLOR_BGR2RGB.

(** What the extractor calls but does not define: image decoding, the
    OpenCV filters and the OCR engine ([self.reader.readtext]). *)
Record world (image : Type) := {
  imread : str -> option image;
  cvtColor : image -> color_conversion -> image;
  medianBlur : image -> Z -> image;
  adaptiveThreshold : image -> Z -> Z -> Z -> image;
  morphologyClose : image -> Z -> Z -> image;
  shape : image -> list Z;
  resize : image -> Z * Z -> image;
  readtext : image -> list ocr_result
}.

(** The calls to the decoder and to the OCR engine, in order. *)
Inductive event :=
| CallImread (path : str)
| CallReadtext.

(** Computations that log calls and may raise. *)
Definition M (A : Type) := list event -> result A * list event.

Definition ret (A : Type) (a : A) : M A := fun tr => (inr a, tr).

Definition raise (A : Type) (e : exn) : M A := fun tr => (inl e, tr).

Definition bind (A B : Type) (m : M A) (k : A -> M B) : M B :=
  fun tr =>
    match m tr with
    | (inl e, tr') => (inl e, tr')
    | (inr a, tr') => k a tr'
    end.

Definition log (ev : event) : M unit := fun tr => (inr tt, tr ++ [ev]).

Definition lift (A : Type) (r : result A) : M A := fun tr => (r, tr).

Notation "x <- m ;; k" := (bind m (fun x => k))
  (at level 61, m at next level, right associativity).

Section Pipeline.
Variable image : Type.
Variable W : world image.

Definition preprocess (image_path : str) : M image :=
  _ <- log (CallImread image_path) ;;
  match imread W image_path with
  | None =>
      raise image (FileNotFoundError (lit "Cannot read image: " ++ image_path))
  | Some img =>
      let gray := cvtColor W img COLOR_BGR2GRAY in
      let denoised := medianBlur W gray 3 in
      let binary := adaptiveThreshold W denoised 255 31 5 in
      let cleaned := morphologyClose W binary 2 2 in
      match shape W cleaned with
      | [h; w] =>
          sz <- lift (upscaled_size h w) ;;
          match sz with
          | Some size => ret (resize W cleaned size)
          | None => ret cleaned
          end
      | _ => raise image ValueError
      end
  end.

Definition read_layout (img : image) : M (list detection) :=
  let rgb := if (length (shape W img) =? 2)%nat
             then cvtColor W img COLOR_GRAY2RGB
             else cvtColor W img COLOR_BGR2RGB in
  _ <- log CallReadtext ;;
  ret (layout_of (readtext W rgb)).

Definition extract_csv (image_path : str) : M (list (list str)) :=
  pre <- preprocess image_path ;;
  items <- read_layout pre ;;
  let grouped := group_rows items in
  lift (rows_to_csv grouped).
End Pipeline.

(** ** Notions the specification uses *)

(** The mean [center_y] of a row. *)
Definition mean_center_y (row : list detection) : Q :=
  py_sum (map center_y row) / inject_Z (Z.of_nat (length row)).




(** The first split that succeeds: on the first colon, else on the first
    of the separators that occurs; key and value are trimmed. *)
Definition first_split (t : str) : option (str * str) :=
  match split_once [COLON] t with
  | Some (k, v) => Some (strip k, strip v)
  | None => split_on_separators SEPARATORS t
  end.

(** The single-cell rule as the specification words it. *)
Definition single_cell_rule (t : str) : list str :=
  match first_split t with
  | Some (key, val) =>
      if truthy val || ends_with_colon key
      then [rstrip_colon key; val]
      else [t]
  | None => [t]
  end.

(** The single-cell rule with the guard of the code: the key must not
    be empty. *)
Definition single_cell_rule_keyed (t : str) : list str :=
  match first_split t with
  | Some (key, val) =>
      if truthy key && (truthy val || ends_with_colon key)
      then [rstrip_colon key; val]
      else [t]
  | None => [t]
  end.

(** A word: a non-empty run of characters that are not white space. *)
Definition nonspace (c : char) : Prop := is_space c = false.

Definition word (w : str) : Prop := w <> [] /\ Forall nonspace w.

(** The section merge as a scan with one row of lookahead. *)
Fixpoint merge_lookahead (csv_rows : list (list str)) : list (list str) :=
  match csv_rows with
  | [] => []
  | r :: rest =>
      match r, rest with
      | [title], next :: rest' =>
          if (3 <=? length next)%nat
          then ((SECTION_TAG ++ title) :: next) :: merge_lookahead rest'
          else r :: merge_lookahead rest
      | _, _ => r :: merge_lookahead rest
      end
  end.

(** A detection with the given text and geometry, for examples. *)
Definition det (t : str) (cy xm h : Q) : detection :=
  {| text := t;
     box := {| p0 := (xm, cy - h / 2); p1 := (xm, cy - h / 2);
               p2 := (xm, cy + h / 2); p3 := (xm, cy + h / 2) |};
     center_y := cy; center_x := xm; height := h; x_min := xm |}.

(** Reading order: ascending [(center_y, x_min)], compared as tuples. *)
Definition reading_le (d e : detection) : Prop :=
  center_y d < center_y e
  \/ (center_y d == center_y e /\ x_min d <= x_min e).

(** Left-to-right order inside a row. *)
Definition x_min_le (d e : detection) : Prop := x_min d <= x_min e.

(** Top-to-bottom order of rows. *)
Definition mean_y_le (r1 r2 : list detection) : Prop :=
  mean_center_y r1 <= mean_center_y r2.

(** Every detection of [r1] lies above (or level with) every detection
    of [r2]. *)
Definition above (r1 r2 : list detection) : Prop :=
  forall d e, In d r1 -> In e r2 -> center_y d <= center_y e.

(** The error kind the specification calls [ImageLoadError] is the
    exception [preprocess] raises when [cv2.imread] returns [None]. *)
Definition is_image_load_error (e : exn) : bool :=
  match e with
  | FileNotFoundError _ => true
  | _ => false
  end.

(** A world in which no file can be decoded, for examples. *)
Definition unreadable_world : world unit :=
  {| imread := fun _ => None;
     cvtColor := fun i _ => i;
     medianBlur := fun i _ => i;
     adaptiveThreshold := fun i _ _ _ => i;
     morphologyClose := fun i _ _ => i;
     shape := fun _ => [10%Z; 10%Z];
     resize := fun i _ => i;
     readtext := fun _ => [] |}.

(** A world in which every file decodes to a 10 by 10 image on which
    the engine finds nothing, for examples. *)
Definition blank_world : world unit :=
  {| imread := fun _ => Some tt;
     cvtColor := fun i _ => i;
     medianBlur := fun i _ => i;
     adaptiveThreshold := fun i _ _ _ => i;
     morphologyClose := fun i _ _ => i;
     shape := fun _ => [10%Z; 10%Z];
     resize := fun i _ => i;
     readtext := fun _ => [] |}.

(** A world in which every file decodes to an image of [h] rows and [w]
    columns; an image is its shape, the filters keep it and [cv2.resize]
    to [(width, height)] gives the image of that size. *)
Definition sized_world (h w : Z) : world (Z * Z) :=
  {| imread := fun _ => Some (h, w);
     cvtColor := fun i _ => i;
     medianBlur := fun i _ => i;
     adaptiveThreshold := fun i _ _ _ => i;
     morphologyClose := fun i _ _ => i;
     shape := fun i => [fst i; snd i];
     resize := fun _ size => (snd size, fst size);
     readtext := fun _ => [] |}.

(** Three detections in reading order: two on one line, one below. *)
Definition sample_items : list detection :=
  [det (lit "b") 0 5 10; det (lit "a") 6 1 10; det (lit "c") 30 0 10].


(** * Properties *)

(** ** Numbers *)

Lemma Qltb_false (a b : Q) : Qltb a b = false -> b <= a.
Proof.
  unfold Qltb. intro H. apply negb_false_iff in H.
  now apply Qle_bool_iff.
Qed.

Lemma Qltb_true (a b : Q) : Qltb a b = true -> a < b.
Proof.
  unfold Qltb. intro H. apply negb_true_iff in H.
  apply Qnot_le_lt. intro Hle. apply Qle_bool_iff in Hle. congruence.
Qed.


(** ** The stable sort *)

Section StableSortFacts.
Variable A : Type.
Variable ltb : A -> A -> bool.

Lemma insert_sorted_perm (x : A) (l : list A) :
  Permutation (insert_sorted ltb x l) (x :: l).
Proof.
  induction l as [|y l IH]; simpl.
  - apply Permutation_refl.
  - destruct (ltb y x).
    + eapply Permutation_trans.
      * apply perm_skip. exact IH.
      * apply perm_swap.
    + apply Permutation_refl.
Qed.

Lemma sorted_with_perm (l : list A) : Permutation (sorted_with ltb l) l.
Proof.
  induction l as [|x l IH]; simpl.
  - constructor.
  - eapply Permutation_trans.
    + apply insert_sorted_perm.
    + now apply perm_skip.
Qed.

Lemma sorted_with_nonempty (l : list A) : l <> [] -> sorted_with ltb l <> [].
Proof.
  intros Hl Hs. apply Hl.
  apply Permutation_nil. rewrite <- Hs.
  apply sorted_with_perm.
Qed.
End StableSortFacts.

Section SortedWithFacts.
Variable A : Type.
Variable ltb : A -> A -> bool.
Variable le : A -> A -> Prop.
Hypothesis ltb_le : forall x y, ltb x y = true -> le x y.
Hypothesis not_ltb_le : forall x y, ltb x y = false -> le y x.
Hypothesis le_trans : forall x y z, le x y -> le y z -> le x z.

Lemma insert_sorted_sorted (x : A) (l : list A) :
  StronglySorted le l -> StronglySorted le (insert_sorted ltb x l).
Proof.
  induction 1 as [|y l Hl IH Hy]; simpl.
  - repeat constructor.
  - destruct (ltb y x) eqn:E.
    + constructor; [exact IH|].
      eapply Permutation_Forall.
      * apply Permutation_sym, insert_sorted_perm.
      * constructor; [now apply ltb_le|exact Hy].
    + apply not_ltb_le in E.
      constructor; [now constructor|].
      constructor; [exact E|].
      eapply Forall_impl; [|exact Hy].
      intros z Hz. eapply le_trans; eassumption.
Qed.

Lemma sorted_with_sorted (l : list A) : StronglySorted le (sorted_with ltb l).
Proof.
  induction l as [|x l IH]; simpl.
  - constructor.
  - now apply insert_sorted_sorted.
Qed.
End SortedWithFacts.

Lemma sorted_by_sorted (A : Type) (key : A -> Q) (l : list A) :
  StronglySorted (fun x y => key x <= key y) (sorted_by key l).
Proof.
  unfold sorted_by. apply sorted_with_sorted.
  - intros x y H. apply Qlt_le_weak. now apply Qltb_true.
  - intros x y H. now apply Qltb_false.
  - intros x y z. apply Qle_trans.
Qed.

Lemma sorted_by_perm (A : Type) (key : A -> Q) (l : list A) :
  Permutation (sorted_by key l) l.
Proof. apply sorted_with_perm. Qed.

(** ** The row grouper cuts the input into consecutive segments *)

Lemma scan_step_anchored (tol : Q) (st : scan_state) (it : detection) :
  last_y (scan_step tol st it) <> None /\ current (scan_step tol st it) <> [].
Proof.
  unfold scan_step. destruct (last_y st) as [ly|].
  - destruct (Qle_bool (Qabs (center_y it - ly)) tol);
      cbn [last_y current]; split; try discriminate.
    destruct (current st); simpl; discriminate.
  - cbn [last_y current]. split; discriminate.
Qed.

Lemma scan_segments (tol : Q) (l : list detection) :
  forall (st : scan_state) (segs : list (list detection)),
    last_y st <> None ->
    current st <> [] ->
    rows st = map (sorted_by x_min) segs ->
    exists segs',
      scan_finish (fold_left (scan_step tol) l st)
      = map (sorted_by x_min) (segs ++ segs')
      /\ concat segs' = current st ++ l
      /\ Forall (fun s => s <> []) segs'.
Proof.
  induction l as [|it l IH]; intros st segs Hy Hc Hr.
  - exists [current st]. simpl. split; [|split].
    + unfold scan_finish. destruct (current st) eqn:E; [congruence|].
      rewrite Hr, map_app. reflexivity.
    + now rewrite !app_nil_r.
    + now constructor.
  - simpl. destruct (last_y st) as [ly|] eqn:Ely; [|congruence].
    destruct (scan_step_anchored tol st it) as [Hy' Hc'].
    unfold scan_step in *. rewrite Ely in *.
    destruct (Qle_bool (Qabs (center_y it - ly)) tol).
    + destruct (IH _ segs Hy' Hc' Hr) as (segs' & Hf & Hcat & Hne).
      exists segs'. split; [exact Hf|]. split; [|exact Hne].
      rewrite Hcat. simpl. now rewrite <- app_assoc.
    + destruct (IH _ (segs ++ [current st]) Hy' Hc') as (segs' & Hf & Hcat & Hne).
      { simpl. rewrite Hr, map_app. reflexivity. }
      exists (current st :: segs'). split; [|split].
      * rewrite Hf, <- app_assoc. reflexivity.
      * simpl. rewrite Hcat. reflexivity.
      * now constructor.
Qed.

Lemma group_rows_segments (items : list detection) :
  exists segs,
    group_rows items = map (sorted_by x_min) segs
    /\ concat segs = items
    /\ Forall (fun s => s <> []) segs.
Proof.
  destruct items as [|it l].
  - exists []. repeat split. constructor.
  - unfold group_rows, scan. simpl fold_left.
    destruct (scan_segments (y_tol (it :: l)) l
                {| rows := []; current := [it]; last_y := Some (center_y it) |}
                [])
      as (segs' & Hf & Hcat & Hne); simpl; try discriminate; try reflexivity.
    exists segs'. unfold scan_step at 1. simpl. auto.
Qed.

Lemma concat_map_perm (A : Type) (f : list A -> list A) (ls : list (list A)) :
  (forall l, Permutation (f l) l) ->
  Permutation (concat (map f ls)) (concat ls).
Proof.
  intro Hf. induction ls as [|l ls IH]; simpl.
  - constructor.
  - now apply Permutation_app.
Qed.

Lemma group_rows_nonempty_rows (items : list detection) :
  Forall (fun r => r <> []) (group_rows items).
Proof.
  destruct (group_rows_segments items) as (segs & -> & _ & Hne).
  apply Forall_map. eapply Forall_impl; [|exact Hne].
  intros s Hs. now apply sorted_with_nonempty.
Qed.

(** C1. The rows of [group_rows] partition the input: taken together,
    the rows hold every input detection as many times as the input does
    (none dropped, none duplicated), and no input gives no rows. *)
Theorem group_rows_partition :
  (forall items : list detection,
      Permutation (concat (group_rows items)) items)
  /\ group_rows [] = [].
Proof.
  split; [|reflexivity].
  intro items.
  destruct (group_rows_segments items) as (segs & -> & <- & _).
  apply concat_map_perm. intro l. apply sorted_by_perm.
Qed.

(** ** Order of the rows *)

Lemma inject_nat_succ (n : nat) :
  inject_Z (Z.of_nat (S n)) == inject_Z (Z.of_nat n) + 1.
Proof.
  rewrite Nat2Z.inj_succ, <- Z.add_1_r, inject_Z_plus. reflexivity.
Qed.

Lemma fold_sum_le (b : Q) (l : list Q) :
  Forall (fun x => x <= b) l ->
  forall acc, fold_left Qplus l acc <= acc + b * inject_Z (Z.of_nat (length l)).
Proof.
  induction 1 as [|x l Hx Hl IH]; intro acc.
  - cbn [fold_left length Z.of_nat]. change (inject_Z 0) with 0. lra.
  - cbn [fold_left length]. rewrite inject_nat_succ.
    specialize (IH (acc + x)). lra.
Qed.

Lemma fold_sum_ge (a : Q) (l : list Q) :
  Forall (fun x => a <= x) l ->
  forall acc, acc + a * inject_Z (Z.of_nat (length l)) <= fold_left Qplus l acc.
Proof.
  induction 1 as [|x l Hx Hl IH]; intro acc.
  - cbn [fold_left length Z.of_nat]. change (inject_Z 0) with 0. lra.
  - cbn [fold_left length]. rewrite inject_nat_succ.
    specialize (IH (acc + x)). lra.
Qed.

Lemma row_size_pos (row : list detection) :
  row <> [] -> 0 < inject_Z (Z.of_nat (length row)).
Proof.
  intro H. destruct row as [|d row]; [congruence|].
  replace 0 with (inject_Z 0) by reflexivity.
  rewrite <- Zlt_Qlt. simpl length. lia.
Qed.

Lemma mean_le_bound (row : list detection) (b : Q) :
  row <> [] ->
  (forall d, In d row -> center_y d <= b) ->
  mean_center_y row <= b.
Proof.
  intros Hne Hb. unfold mean_center_y, py_sum.
  apply Qle_shift_div_r; [now apply row_size_pos|].
  pose proof (@fold_sum_le b (map center_y row)) as H.
  rewrite length_map in H.
  assert (HF : Forall (fun x => x <= b) (map center_y row)).
  { apply Forall_map, Forall_forall. exact Hb. }
  specialize (H HF 0). lra.
Qed.

Lemma mean_ge_bound (row : list detection) (a : Q) :
  row <> [] ->
  (forall d, In d row -> a <= center_y d) ->
  a <= mean_center_y row.
Proof.
  intros Hne Ha. unfold mean_center_y, py_sum.
  apply Qle_shift_div_l; [now apply row_size_pos|].
  pose proof (@fold_sum_ge a (map center_y row)) as H.
  rewrite length_map in H.
  assert (HF : Forall (fun x => a <= x) (map center_y row)).
  { apply Forall_map, Forall_forall. exact Ha. }
  specialize (H HF 0). lra.
Qed.

Lemma above_mean (r1 r2 : list detection) :
  r1 <> [] -> r2 <> [] -> above r1 r2 -> mean_y_le r1 r2.
Proof.
  intros H1 H2 Hab. unfold mean_y_le.
  apply mean_le_bound; [exact H1|].
  intros d Hd. apply mean_ge_bound; [exact H2|].
  intros e He. now apply Hab.
Qed.

Lemma reading_le_center (d e : detection) :
  reading_le d e -> center_y d <= center_y e.
Proof.
  intros [H | [H _]].
  - now apply Qlt_le_weak.
  - rewrite H. apply Qle_refl.
Qed.

Lemma reading_le_trans : Transitive reading_le.
Proof.
  intros x y z [H1 | [H1 H1']] [H2 | [H2 H2']]; unfold reading_le.
  - left. eapply Qlt_trans; eassumption.
  - left. now rewrite <- H2.
  - left. now rewrite H1.
  - right. split.
    + now rewrite H1.
    + eapply Qle_trans; eassumption.
Qed.

Lemma StronglySorted_weaken (A : Type) (R S : A -> A -> Prop) (l : list A) :
  (forall x y, R x y -> S x y) -> StronglySorted R l -> StronglySorted S l.
Proof.
  intros HRS. induction 1 as [|x l Hl IH Hx]; constructor.
  - exact IH.
  - eapply Forall_impl; [|exact Hx]. intros y. apply HRS.
Qed.

Lemma StronglySorted_app_split (A : Type) (R : A -> A -> Prop) (l1 l2 : list A) :
  StronglySorted R (l1 ++ l2) ->
  StronglySorted R l2 /\ (forall x y, In x l1 -> In y l2 -> R x y).
Proof.
  induction l1 as [|a l1 IH]; simpl; intro H.
  - split; [exact H|]. intros x y [].
  - apply StronglySorted_inv in H. destruct H as [Hs Ha].
    destruct (IH Hs) as [H2 H12]. split; [exact H2|].
    intros x y [<- | Hx] Hy.
    + rewrite Forall_forall in Ha. apply Ha, in_or_app. now right.
    + now apply H12.
Qed.

Lemma segments_above (segs : list (list detection)) :
  StronglySorted (fun d e => center_y d <= center_y e) (concat segs) ->
  StronglySorted above segs.
Proof.
  induction segs as [|s segs IH]; simpl; intro H.
  - constructor.
  - apply StronglySorted_app_split in H. destruct H as [H2 H12].
    constructor; [now apply IH|].
    apply Forall_forall. intros s' Hs' d e Hd He.
    apply H12; [exact Hd|]. apply in_concat. now exists s'.
Qed.

Lemma sorted_rows_mean_order (segs : list (list detection)) :
  Forall (fun s => s <> []) segs ->
  StronglySorted above segs ->
  StronglySorted mean_y_le (map (sorted_by x_min) segs).
Proof.
  intros Hne. induction 1 as [|s segs Hs IH Hab]; simpl; constructor.
  - apply IH. now inversion Hne.
  - apply Forall_map, Forall_forall. intros s' Hs'.
    inversion Hne as [|? ? Hs_ne Hsegs_ne]; subst.
    rewrite Forall_forall in Hab, Hsegs_ne.
    apply above_mean.
    + now apply sorted_with_nonempty.
    + apply sorted_with_nonempty. now apply Hsegs_ne.
    + intros d e Hd He. apply (Hab s' Hs').
      * eapply Permutation_in; [apply sorted_by_perm|exact Hd].
      * eapply Permutation_in; [apply sorted_by_perm|exact He].
Qed.

(** C2. On input in reading order (ascending [(center_y, x_min)], what
    [read_layout] produces) the rows of [group_rows] come in ascending
    mean [center_y], and the detections of each row in ascending
    [x_min]. *)
Theorem group_rows_ordered (items : list detection) :
  Sorted reading_le items ->
  StronglySorted mean_y_le (group_rows items)
  /\ Forall (StronglySorted x_min_le) (group_rows items).
Proof.
  intro Hs.
  destruct (group_rows_segments items) as (segs & -> & <- & Hne).
  split.
  - apply sorted_rows_mean_order; [exact Hne|].
    apply segments_above.
    apply StronglySorted_weaken with (R := reading_le).
    + exact reading_le_center.
    + apply Sorted_StronglySorted; [exact reading_le_trans|exact Hs].
  - apply Forall_map, Forall_forall. intros s _.
    apply (sorted_by_sorted x_min).
Qed.

Lemma group_rows_ordered_witness :
  Sorted reading_le sample_items
  /\ StronglySorted mean_y_le (group_rows sample_items)
  /\ Forall (StronglySorted x_min_le) (group_rows sample_items).
Proof.
  assert (H : Sorted reading_le sample_items).
  { unfold sample_items.
    repeat constructor; left; reflexivity. }
  split; [exact H|]. exact (group_rows_ordered H).
Defined.

(** [read_layout] hands its items over in reading order, whatever the
    engine returned. *)
Lemma reading_ltb_le (d e : detection) : reading_ltb d e = true -> reading_le d e.
Proof.
  unfold reading_ltb, reading_le.
  destruct (Qeq_bool (center_y d) (center_y e)) eqn:E; intro H.
  - right. split; [now apply Qeq_bool_eq|].
    apply Qlt_le_weak. now apply Qltb_true.
  - left. now apply Qltb_true.
Qed.

Lemma reading_not_ltb_le (d e : detection) :
  reading_ltb d e = false -> reading_le e d.
Proof.
  unfold reading_ltb, reading_le.
  destruct (Qeq_bool (center_y d) (center_y e)) eqn:E; intro H.
  - right. split; [symmetry; now apply Qeq_bool_eq|].
    now apply Qltb_false.
  - left. apply Qltb_false in H. apply Qeq_bool_neq in E.
    apply Qle_lteq in H. destruct H as [H|H]; [exact H|].
    exfalso. apply E. now symmetry.
Qed.

Lemma layout_of_reading_order (results : list ocr_result) :
  Sorted reading_le (layout_of results).
Proof.
  apply StronglySorted_Sorted. unfold layout_of.
  apply sorted_with_sorted.
  - exact reading_ltb_le.
  - exact reading_not_ltb_le.
  - exact reading_le_trans.
Qed.

(** ** The join rule of the scan *)







(** A detection exactly at the boundary joins: the tolerance is 6 and
    the second centre is 6 below the anchor. *)
Example group_rows_boundary_joins :
  y_tol [det (lit "b") 0 5 10; det (lit "a") 6 1 10] == 6
  /\ group_rows [det (lit "b") 0 5 10; det (lit "a") 6 1 10]
     = [[det (lit "a") 6 1 10; det (lit "b") 0 5 10]].
Proof. split; reflexivity. Qed.

(** The anchor is smoothed, not reset: after 0 and 6 the anchor is 3, so
    a centre at 10 is 7 away and opens a new row, although it is only 4
    away from the last detection. *)
Example group_rows_anchor_smoothed :
  group_rows [det (lit "a") 0 0 10; det (lit "b") 6 1 10; det (lit "c") 10 2 10]
  = [[det (lit "a") 0 0 10; det (lit "b") 6 1 10]; [det (lit "c") 10 2 10]]
  /\ last_y (scan 6 [det (lit "a") 0 0 10; det (lit "b") 6 1 10]) = Some ((0 + 6) / 2).
Proof. split; reflexivity. Qed.

(** ** The tolerance *)









(** ** The section merge *)

Lemma list_pair_ind (A : Type) (P : list A -> Prop) :
  P [] ->
  (forall x, P [x]) ->
  (forall x y l, P l -> P (y :: l) -> P (x :: y :: l)) ->
  forall l, P l.
Proof.
  intros H0 H1 H2 l.
  enough (H : P l /\ forall x, P (x :: l)) by apply H.
  induction l as [|y l [IHl IHy]]; split; auto.
Qed.

Lemma merge_lookahead_single (r : list str) : merge_lookahead [r] = [r].
Proof. destruct r as [|t [|t' r]]; reflexivity. Qed.

Lemma merge_lookahead_merge (title : str) (next : list str) (l : list (list str)) :
  (3 <=? length next)%nat = true ->
  merge_lookahead ([title] :: next :: l)
  = ((SECTION_TAG ++ title) :: next) :: merge_lookahead l.
Proof. intro H. cbn [merge_lookahead]. now rewrite H. Qed.

Lemma merge_lookahead_pass (r next : list str) (l : list (list str)) :
  (length r =? 1)%nat && (3 <=? length next)%nat = false ->
  merge_lookahead (r :: next :: l) = r :: merge_lookahead (next :: l).
Proof.
  intro H. destruct r as [|t [|t' r]]; try reflexivity.
  cbn [merge_lookahead]. cbn [length Nat.eqb andb] in H. now rewrite H.
Qed.

Lemma nth_after (A : Type) (pre : list A) (x y : A) (l : list A) (d : A) :
  nth (length pre + 1) (pre ++ x :: y :: l) d = y.
Proof.
  rewrite app_nth2 by lia.
  replace (length pre + 1 - length pre)%nat with 1%nat by lia.
  reflexivity.
Qed.

Lemma merge_step_unset (csv_rows merged : list (list str)) (i : nat)
  (r : list str) :
  merge_step csv_rows (merged, false) (i, r)
  = if (length r =? 1)%nat
       && (i + 1 <? length csv_rows)%nat
       && (3 <=? length (nth (i + 1) csv_rows []))%nat
    then (merged ++ [(SECTION_TAG ++ nth 0 r []) :: nth (i + 1) csv_rows []],
          true)
    else (merged ++ [r], false).
Proof. reflexivity. Qed.

Lemma merge_step_set (csv_rows merged : list (list str)) (ir : nat * list str) :
  merge_step csv_rows (merged, true) ir = (merged, false).
Proof. destruct ir. reflexivity. Qed.

(** The loop over [enumerate(csv_rows)], started at the rows [suf] that
    follow [pre] with [skip_next] unset, appends the lookahead scan of
    [suf] and ends with [skip_next] unset. *)
Lemma merge_fold (csv_rows : list (list str)) (suf : list (list str)) :
  forall (pre merged : list (list str)),
    csv_rows = pre ++ suf ->
    fold_left (merge_step csv_rows)
      (combine (seq (length pre) (length suf)) suf) (merged, false)
    = (merged ++ merge_lookahead suf, false).
Proof.
  induction suf as [|x|x y l IHl IHy] using list_pair_ind;
    intros pre merged Hcsv.
  - simpl. now rewrite app_nil_r.
  - rewrite merge_lookahead_single. cbn [length seq combine fold_left].
    assert (Hlen : (length pre + 1 <? length csv_rows)%nat = false).
    { apply Nat.ltb_ge. rewrite Hcsv, length_app. simpl. lia. }
    rewrite merge_step_unset, Hlen, andb_false_r. reflexivity.
  - cbn [length seq combine fold_left].
    assert (Hlen : (length pre + 1 <? length csv_rows)%nat = true).
    { apply Nat.ltb_lt. rewrite Hcsv, length_app. simpl. lia. }
    assert (Hnth : nth (length pre + 1) csv_rows [] = y).
    { rewrite Hcsv. apply nth_after. }
    rewrite merge_step_unset, Hlen, Hnth, andb_true_r.
    destruct ((length x =? 1)%nat && (3 <=? length y)%nat) eqn:E.
    + apply andb_true_iff in E. destruct E as [E1 E3].
      destruct x as [|title [|t' x]]; try discriminate.
      rewrite merge_lookahead_merge by exact E3.
      rewrite merge_step_set. cbn [nth].
      specialize (IHl (pre ++ [[title]; y])
                      (merged ++ [(SECTION_TAG ++ title) :: y])).
      rewrite length_app in IHl. cbn [length] in IHl.
      replace (length pre + 2)%nat with (S (S (length pre))) in IHl by lia.
      rewrite IHl.
      * now rewrite <- app_assoc.
      * rewrite Hcsv, <- app_assoc. reflexivity.
    + rewrite merge_lookahead_pass by exact E.
      specialize (IHy (pre ++ [x]) (merged ++ [x])).
      rewrite length_app in IHy. cbn [length] in IHy.
      replace (length pre + 1)%nat with (S (length pre)) in IHy by lia.
      cbn [length seq combine fold_left] in IHy. rewrite IHy.
      * now rewrite <- app_assoc.
      * rewrite Hcsv, <- app_assoc. reflexivity.
Qed.

Lemma merge_sections_scan (csv_rows : list (list str)) :
  merge_sections csv_rows = merge_lookahead csv_rows.
Proof.
  unfold merge_sections, enumerate.
  pose proof (@merge_fold csv_rows csv_rows [] [] eq_refl) as H.
  cbn [length app] in H. now rewrite H.
Qed.

(** C6. The section merge is one forward scan with one row of
    lookahead: a row of exactly one cell followed by a row of at least
    three cells is replaced, together with that row, by the one row
    ["[Section] " + cell] followed by the cells of the next row, and the
    scan goes on after both; every other row is passed on unchanged. *)
Theorem merge_sections_lookahead :
  (forall csv_rows, merge_sections csv_rows = merge_lookahead csv_rows)
  /\ (forall title next rest,
         (3 <= length next)%nat ->
         merge_sections ([title] :: next :: rest)
         = ((lit "[Section] " ++ title) :: next) :: merge_sections rest)
  /\ (forall r next rest,
         length r <> 1%nat \/ (length next < 3)%nat ->
         merge_sections (r :: next :: rest)
         = r :: merge_sections (next :: rest))
  /\ (forall r, merge_sections [r] = [r])
  /\ merge_sections [[lit "Title"]; [lit "A"; lit "B"; lit "C"]]
     = [[lit "[Section] Title"; lit "A"; lit "B"; lit "C"]].
Proof.
  split; [exact merge_sections_scan|].
  split; [|split; [|split]].
  - intros title next rest H. rewrite !merge_sections_scan.
    apply merge_lookahead_merge. now apply Nat.leb_le.
  - intros r next rest H. rewrite !merge_sections_scan.
    apply merge_lookahead_pass. apply andb_false_iff.
    destruct H as [H | H].
    + left. now apply Nat.eqb_neq.
    + right. apply Nat.leb_gt. exact H.
  - intro r. rewrite merge_sections_scan. apply merge_lookahead_single.
  - reflexivity.
Qed.

Lemma merge_sections_lookahead_witness :
  (3 <= length [lit "A"; lit "B"; lit "C"])%nat
  /\ merge_sections [[lit "Title"]; [lit "A"; lit "B"; lit "C"]; [lit "Z"]]
     = ((lit "[Section] " ++ lit "Title") :: [lit "A"; lit "B"; lit "C"])
       :: merge_sections [[lit "Z"]].
Proof.
  split; [simpl; lia|].
  apply (proj1 (proj2 merge_sections_lookahead)). simpl; lia.
Defined.

(** ** No empty row *)

Lemma csv_row_nonempty (row_items : list detection) :
  row_items <> [] ->
  exists r, csv_row row_items = inr r /\ r <> [].
Proof.
  intro Hne. destruct row_items as [|d row_items]; [congruence|].
  unfold csv_row. cbn [map nth_error].
  set (t0 := _normalize_cell (text d)).
  set (texts := map (fun it => _normalize_cell (text it)) row_items).
  destruct ((3 <=? length (t0 :: texts))%nat && _).
  - eexists. split; [reflexivity|discriminate].
  - destruct (length (t0 :: texts) =? 1)%nat.
    + destruct (_split_key_value t0) as [key val].
      destruct (truthy key && _);
        eexists; (split; [reflexivity|discriminate]).
    + destruct (ends_with_colon t0 && _);
        eexists; (split; [reflexivity|discriminate]).
Qed.

Lemma csv_rows_of_nonempty (rows : list (list detection)) :
  Forall (fun r => r <> []) rows ->
  exists csv_rows,
    csv_rows_of rows = inr csv_rows /\ Forall (fun r => r <> []) csv_rows.
Proof.
  induction 1 as [|row rows Hrow _ (rs & Hrs & Hne)].
  - exists []. split; [reflexivity|constructor].
  - destruct (csv_row_nonempty Hrow) as (r & Hr & Hr_ne).
    exists (r :: rs). cbn [csv_rows_of]. rewrite Hr, Hrs.
    split; [reflexivity|now constructor].
Qed.

Lemma merge_lookahead_nonempty (csv_rows : list (list str)) :
  Forall (fun r => r <> []) csv_rows ->
  Forall (fun r => r <> []) (merge_lookahead csv_rows).
Proof.
  induction csv_rows as [|x|x y l IHl IHy] using list_pair_ind; intro H.
  - constructor.
  - now rewrite merge_lookahead_single.
  - inversion H as [|? ? Hx Hyl]; subst.
    inversion Hyl as [|? ? Hy Hl]; subst.
    destruct ((length x =? 1)%nat && (3 <=? length y)%nat) eqn:E.
    + apply andb_true_iff in E. destruct E as [E1 E3].
      destruct x as [|title [|t' x]]; try discriminate.
      rewrite merge_lookahead_merge by exact E3.
      constructor; [discriminate|now apply IHl].
    + rewrite merge_lookahead_pass by exact E.
      constructor; [exact Hx|now apply IHy].
Qed.

(** C10. Every row of [group_rows] holds at least one detection, and so
    [rows_to_csv] succeeds on the rows of [group_rows] and every CSV row
    it returns, the merged section rows included, holds at least one
    cell. *)
Theorem no_empty_row (items : list detection) :
  Forall (fun row => row <> []) (group_rows items)
  /\ exists csv,
      rows_to_csv (group_rows items) = inr csv
      /\ Forall (fun r => r <> []) csv.
Proof.
  split; [apply group_rows_nonempty_rows|].
  destruct (csv_rows_of_nonempty (group_rows_nonempty_rows items))
    as (csv_rows & Hcsv & Hne).
  exists (merge_sections csv_rows). unfold rows_to_csv. rewrite Hcsv.
  split; [reflexivity|].
  rewrite merge_sections_scan. now apply merge_lookahead_nonempty.
Qed.

(** An empty row of detections, which [group_rows] never produces, makes
    [rows_to_csv] fail at [texts[0]]. *)
Example rows_to_csv_empty_row : rows_to_csv [[]] = inl IndexError.
Proof. reflexivity. Qed.

(** ** Failure on an undecodable image *)

(** C8. When the image cannot be decoded ([cv2.imread] returns [None])
    [extract_csv] fails with the exception of [preprocess], the error
    kind for unreadable images, and the only call made to the outside
    is the decoding attempt: the OCR engine is never invoked. *)
Theorem undecodable_image_fails (image : Type) (W : world image)
  (image_path : str) (tr : list event) :
  imread W image_path = None ->
  extract_csv W image_path tr
  = (inl (FileNotFoundError (lit "Cannot read image: " ++ image_path)),
     tr ++ [CallImread image_path])
  /\ (exists e, fst (extract_csv W image_path tr) = inl e
                /\ is_image_load_error e = true)
  /\ (~ In CallReadtext tr ->
      ~ In CallReadtext (snd (extract_csv W image_path tr))).
Proof.
  intro Hnone.
  assert (H : extract_csv W image_path tr
              = (inl (FileNotFoundError (lit "Cannot read image: " ++ image_path)),
                 tr ++ [CallImread image_path])).
  { unfold extract_csv, preprocess, bind, log, raise.
    rewrite Hnone. reflexivity. }
  split; [exact H|]. rewrite H. cbn [fst snd]. split.
  - eexists. split; reflexivity.
  - intros Htr Hin. apply in_app_or in Hin.
    destruct Hin as [Hin | [Hin | []]]; [contradiction|discriminate].
Qed.

Lemma undecodable_image_fails_witness :
  imread unreadable_world (lit "missing.jpg") = None
  /\ extract_csv unreadable_world (lit "missing.jpg") []
     = (inl (FileNotFoundError (lit "Cannot read image: " ++ lit "missing.jpg")),
        [] ++ [CallImread (lit "missing.jpg")]).
Proof.
  split; [reflexivity|].
  apply (@undecodable_image_fails unit unreadable_world (lit "missing.jpg") []).
  reflexivity.
Defined.

(** On a readable image the engine is invoked, after the decoding. *)
Example readable_image_reaches_ocr :
  extract_csv blank_world (lit "page.png") []
  = (inr [], [CallImread (lit "page.png"); CallReadtext]).
Proof. vm_compute. reflexivity. Qed.

(** ** The size of the upscaled image *)

Lemma upscaled_size_large (h w : Z) :
  (1400 <= Z.max h w)%Z -> upscaled_size h w = inr None.
Proof.
  intro H. unfold upscaled_size.
  destruct (Z.ltb_spec (Z.max h w) 1400); [lia|reflexivity].
Qed.

(** For every larger dimension from 1 to 1399 the new larger dimension
    is 1400 or 1399. *)
Lemma upscaled_size_near_1400 :
  forallb (fun d =>
    match upscaled_size 1 d with
    | inr (Some (nw, _)) => (nw =? 1400)%Z || (nw =? 1399)%Z
    | _ => false
    end) (map Z.of_nat (seq 1 1399)) = true.
Proof. vm_compute. reflexivity. Qed.

(** C7. The upscale misses 1400 pixels for some sizes: the cleaned image
    of 79 by 79 pixels is resized to 1399 by 1399, because
    [79 * (1400.0 / 79)] is just below 1400 in binary64 arithmetic and
    [int] truncates; 51 of the 1399 possible larger dimensions end at
    1399. An image of 700 by 1399 is resized to 1400 columns. *)
Theorem upscaled_size_misses_1400 :
  upscaled_size 79 79 = inr (Some (1399, 1399)%Z)
  /\ preprocess (sized_world 79 79) (lit "small.png") []
     = (inr (1399, 1399)%Z, [CallImread (lit "small.png")])
  /\ upscaled_size 50 79 = inr (Some (1399, 886)%Z)
  /\ upscaled_size 700 1399 = inr (Some (1400, 700)%Z)
  /\ length (filter (fun d =>
       match upscaled_size 1 d with
       | inr (Some (nw, _)) => negb (nw =? 1400)%Z
       | _ => true
       end) (map Z.of_nat (seq 1 1399))) = 51%nat.
Proof. vm_compute. repeat split. Qed.

(** ** Cell normalisation *)

Lemma split_ws_from_words (s : str) :
  forall cur, Forall nonspace cur -> Forall word (split_ws_from cur s).
Proof.
  induction s as [|c s IH]; intros cur Hcur; cbn [split_ws_from].
  - destruct cur as [|x cur]; constructor; [|constructor].
    split.
    + intro H. apply (f_equal (@rev char)) in H.
      rewrite rev_involutive in H. discriminate.
    + now apply Forall_rev.
  - destruct (is_space c) eqn:E.
    + destruct cur as [|x cur]; [now apply IH|].
      constructor; [|apply IH; constructor].
      split.
      * intro H. apply (f_equal (@rev char)) in H.
        rewrite rev_involutive in H. discriminate.
      * now apply Forall_rev.
    + apply IH. now constructor.
Qed.

Lemma split_ws_from_run (w : str) :
  Forall nonspace w ->
  forall cur rest,
    split_ws_from cur (w ++ rest) = split_ws_from (rev w ++ cur) rest.
Proof.
  induction 1 as [|c w Hc _ IH]; intros cur rest.
  - reflexivity.
  - cbn [app split_ws_from rev]. rewrite Hc, IH, <- app_assoc. reflexivity.
Qed.

Lemma split_ws_word_then (w rest : str) :
  word w ->
  split_ws (w ++ SPACE :: rest) = w :: split_ws rest.
Proof.
  intros [Hne Hw]. unfold split_ws.
  rewrite split_ws_from_run by exact Hw. rewrite app_nil_r.
  cbn [split_ws_from]. change (is_space SPACE) with true. cbv iota.
  destruct (rev w) eqn:E.
  - exfalso. apply Hne. apply (f_equal (@rev char)) in E.
    now rewrite rev_involutive in E.
  - now rewrite <- E, rev_involutive.
Qed.

Lemma split_ws_word (w : str) : word w -> split_ws w = [w].
Proof.
  intros [Hne Hw]. unfold split_ws.
  rewrite <- (app_nil_r w) at 1.
  rewrite split_ws_from_run by exact Hw. rewrite app_nil_r.
  cbn [split_ws_from].
  destruct (rev w) eqn:E.
  - exfalso. apply Hne. apply (f_equal (@rev char)) in E.
    now rewrite rev_involutive in E.
  - now rewrite <- E, rev_involutive.
Qed.

Lemma split_join (ws : list str) :
  Forall word ws -> split_ws (join [SPACE] ws) = ws.
Proof.
  induction 1 as [|w ws Hw Hws IH].
  - reflexivity.
  - destruct ws as [|w2 ws].
    + now apply split_ws_word.
    + change (join [SPACE] (w :: w2 :: ws))
        with (w ++ SPACE :: join [SPACE] (w2 :: ws)).
      rewrite split_ws_word_then by exact Hw. now rewrite IH.
Qed.

Lemma join_forall (P : char -> Prop) (sep : str) (ws : list str) :
  Forall P sep -> Forall (Forall P) ws -> Forall P (join sep ws).
Proof.
  intros Hsep. induction 1 as [|w ws Hw Hws IH].
  - constructor.
  - destruct ws as [|w2 ws]; [exact Hw|].
    change (join sep (w :: w2 :: ws)) with (w ++ sep ++ join sep (w2 :: ws)).
    apply Forall_app. split; [exact Hw|].
    apply Forall_app. now split.
Qed.

Lemma replace_char_absent (a b : char) (s : str) :
  Forall (fun c => c <> a) s -> replace_char a b s = s.
Proof.
  unfold replace_char. induction 1 as [|c s Hc _ IH]; simpl.
  - reflexivity.
  - apply N.eqb_neq in Hc. now rewrite Hc, IH.
Qed.

Lemma nonspace_not_nbsp (c : char) : nonspace c -> c <> NBSP.
Proof. intros H ->. discriminate H. Qed.

Lemma replace_join (ws : list str) :
  Forall word ws ->
  replace_char NBSP SPACE (join [SPACE] ws) = join [SPACE] ws.
Proof.
  intro H. apply replace_char_absent, join_forall.
  - repeat constructor. discriminate.
  - eapply Forall_impl; [|exact H].
    intros w [_ Hw]. eapply Forall_impl; [|exact Hw].
    exact nonspace_not_nbsp.
Qed.

Lemma lstrip_join (ws : list str) :
  Forall word ws -> lstrip (join [SPACE] ws) = join [SPACE] ws.
Proof.
  intro H. destruct H as [|w ws [Hne Hw] _]; [reflexivity|].
  destruct w as [|c w]; [congruence|].
  inversion Hw as [|? ? Hc _]; subst.
  destruct ws as [|w2 ws]; cbn [join app lstrip]; now rewrite Hc.
Qed.

Lemma join_snoc (sep : str) (l : list str) (w : str) :
  l <> [] -> join sep (l ++ [w]) = join sep l ++ sep ++ w.
Proof.
  induction l as [|x l IH]; intro Hne; [congruence|].
  destruct l as [|y l].
  - reflexivity.
  - change (join sep ((x :: y :: l) ++ [w]))
      with (x ++ sep ++ join sep ((y :: l) ++ [w])).
    rewrite IH by discriminate.
    change (join sep (x :: y :: l)) with (x ++ sep ++ join sep (y :: l)).
    now rewrite <- !app_assoc.
Qed.

Lemma rev_join (sep : str) (ws : list str) :
  rev (join sep ws) = join (rev sep) (rev (map (@rev char) ws)).
Proof.
  induction ws as [|w ws IH]; [reflexivity|].
  destruct ws as [|w2 ws]; [reflexivity|].
  change (join sep (w :: w2 :: ws)) with (w ++ sep ++ join sep (w2 :: ws)).
  rewrite !rev_app_distr, IH.
  cbn [map rev]. rewrite <- app_assoc.
  symmetry. rewrite (join_snoc (rev sep)).
  - reflexivity.
  - intro H. apply app_eq_nil in H. destruct H; discriminate.
Qed.

Lemma word_rev (w : str) : word w -> word (rev w).
Proof.
  intros [Hne Hw]. split.
  - intro H. apply Hne. apply (f_equal (@rev char)) in H.
    now rewrite rev_involutive in H.
  - now apply Forall_rev.
Qed.

Lemma strip_join (ws : list str) :
  Forall word ws -> strip (join [SPACE] ws) = join [SPACE] ws.
Proof.
  intro H. unfold strip, rstrip.
  rewrite lstrip_join by exact H.
  pose proof (rev_join [SPACE] ws) as R.
  change (rev [SPACE]) with [SPACE] in R.
  rewrite R, lstrip_join.
  - now rewrite <- R, rev_involutive.
  - apply Forall_rev, Forall_map.
    eapply Forall_impl; [|exact H]. exact word_rev.
Qed.

Lemma normalize_join (ws : list str) :
  Forall word ws -> _normalize_cell (join [SPACE] ws) = join [SPACE] ws.
Proof.
  intro H. unfold _normalize_cell. cbv zeta.
  now rewrite replace_join, strip_join, split_join.
Qed.

(** C9. Cell normalisation is idempotent: a normalised string is left
    as it is by a second normalisation. *)
Theorem normalize_cell_idempotent (t : str) :
  _normalize_cell (_normalize_cell t) = _normalize_cell t.
Proof.
  unfold _normalize_cell at 2 3. cbv zeta.
  apply normalize_join.
  apply split_ws_from_words. constructor.
Qed.

(** Non-breaking spaces and runs of white space become single spaces,
    the ends are trimmed. *)
Example normalize_cell_example :
  _normalize_cell ([SPACE; SPACE] ++ lit "a" ++ [NBSP; 9%N; NBSP]
                   ++ lit "b  c" ++ [10%N])
  = lit "a b c".
Proof. reflexivity. Qed.

(** ** The single-cell rule *)

Lemma split_once_char_none (c : char) (s : str) :
  split_once [c] s = None -> ~ In c s.
Proof.
  induction s as [|x s IH]; intros H Hin; [exact Hin|].
  cbn [split_once strip_prefix] in H.
  destruct (N.eqb_spec c x) as [->|Hneq]; [discriminate|].
  destruct (split_once [c] s) as [[k v]|]; [discriminate|].
  destruct Hin as [Hx|Hin]; [congruence|]. now apply IH.
Qed.

Lemma lstrip_in (x : char) (s : str) : In x (lstrip s) -> In x s.
Proof.
  induction s as [|c s IH]; cbn [lstrip]; [auto|].
  destruct (is_space c); [|auto]. intro H. right. now apply IH.
Qed.

Lemma strip_in (x : char) (s : str) : In x (strip s) -> In x s.
Proof.
  unfold strip, rstrip. intro H.
  apply lstrip_in. apply in_rev. apply lstrip_in. now apply in_rev in H.
Qed.

Lemma ends_with_colon_in (s : str) : ends_with_colon s = true -> In COLON s.
Proof.
  unfold ends_with_colon. intro H. apply in_rev.
  destruct (rev s) as [|c r]; [discriminate|].
  apply N.eqb_eq in H. subst c. now left.
Qed.

Lemma ends_with_colon_absent (s : str) :
  ~ In COLON s -> ends_with_colon s = false.
Proof.
  intro H. destruct (ends_with_colon s) eqn:E; [|reflexivity].
  exfalso. now apply H, ends_with_colon_in.
Qed.

(** The row classifier on a row of one detection, unfolded. *)
Lemma csv_row_single (it : detection) :
  csv_row [it]
  = let t := _normalize_cell (text it) in
    let '(key, val) := _split_key_value t in
    if truthy key && (truthy val || ends_with_colon key)
    then inr [rstrip_colon key; val]
    else inr [t].
Proof. reflexivity. Qed.

(** The claim C3 as stated fails when the key is empty: for [":x"] the
    split succeeds with a non-empty value, yet the cell is kept whole. *)
Lemma single_cell_rule_fails_on_empty_key :
  csv_row [det (lit ":x") 0 0 10] = inr [lit ":x"]
  /\ single_cell_rule (_normalize_cell (lit ":x")) = [[]; lit "x"]
  /\ csv_row [det (lit ":x") 0 0 10]
     <> inr (single_cell_rule (_normalize_cell (lit ":x"))).
Proof. repeat split. discriminate. Qed.

(** C3 (amended). A row of exactly one cell is split on its first colon
    or, when it has none, on the first of [" - "], [" — "], ["–"] that
    occurs; when a split succeeds, the key is non-empty and the value is
    non-empty or the key ends with a colon, the row emitted is
    [[key without trailing colons; value]]; otherwise it is the cell
    unchanged. *)
Theorem single_cell_row :
  (forall it : detection,
      csv_row [it] = inr (single_cell_rule_keyed (_normalize_cell (text it))))
  /\ csv_row [det (lit "Date: 2023-01-01") 0 0 10]
     = inr [lit "Date"; lit "2023-01-01"]
  /\ csv_row [det (lit "Acme Corporation") 0 0 10]
     = inr [lit "Acme Corporation"].
Proof.
  split; [|split; reflexivity].
  intro it. rewrite csv_row_single. cbv zeta.
  unfold _split_key_value, single_cell_rule_keyed, first_split.
  set (t := _normalize_cell (text it)).
  destruct (split_once [COLON] t) as [[k v]|] eqn:Ecolon.
  - destruct (truthy (strip k) && _); reflexivity.
  - destruct (split_on_separators SEPARATORS t) as [[key val]|].
    + destruct (truthy key && _); reflexivity.
    + rewrite ends_with_colon_absent.
      * cbn [truthy orb]. now rewrite andb_false_r.
      * intro H. apply strip_in in H.
        now apply (split_once_char_none _ _ Ecolon).
Qed.

(** The separators are tried in the order of the list: with both
    [" - "] and ["–"] in the cell, the split is on [" - "]. *)
Example single_cell_separator_order :
  csv_row [det (lit "a" ++ [EN_DASH] ++ lit "b - c") 0 0 10]
  = inr [lit "a" ++ [EN_DASH] ++ lit "b"; lit "c"]
  /\ csv_row [det (lit "a" ++ [SPACE; EM_DASH; SPACE] ++ lit "b") 0 0 10]
     = inr [lit "a"; lit "b"]
  /\ csv_row [det (lit "a" ++ [EN_DASH] ++ lit "b") 0 0 10]
     = inr [lit "a"; lit "b"].
Proof. repeat split. Qed.

(** The key of a successful split holds no colon, so the test "the key
    ends with a colon" never holds and removing trailing colons changes
    nothing: the two-cell row is emitted exactly when key and value are
    both non-empty. *)

Lemma split_once_char_key (c : char) (s : str) :
  forall k v, split_once [c] s = Some (k, v) -> ~ In c k.
Proof.
  induction s as [|x s IH]; intros k v H; [discriminate|].
  cbn [split_once strip_prefix] in H.
  destruct (N.eqb_spec c x) as [->|Hneq].
  - injection H as <- _. intros [].
  - destruct (split_once [c] s) as [[k' v']|] eqn:E; [|discriminate].
    injection H as <- _. intros [Hx|Hin]; [congruence|].
    now apply (IH k' v').
Qed.

Lemma split_once_key_in (sep s : str) :
  forall k v, split_once sep s = Some (k, v) ->
              forall x, In x k -> In x s.
Proof.
  induction s as [|c s IH]; intros k v H x Hx.
  - cbn [split_once] in H.
    destruct (strip_prefix sep []); [|discriminate].
    injection H as <- _. destruct Hx.
  - cbn [split_once] in H.
    destruct (strip_prefix sep (c :: s)).
    + injection H as <- _. destruct Hx.
    + destruct (split_once sep s) as [[k' v']|] eqn:E; [|discriminate].
      injection H as <- _. destruct Hx as [->|Hx]; [now left|].
      right. now apply (IH k' v').
Qed.

Lemma split_on_separators_key_in (seps : list str) (t : str) :
  forall key val, split_on_separators seps t = Some (key, val) ->
                  forall x, In x key -> In x t.
Proof.
  induction seps as [|sep seps IH]; intros key val H x Hx; [discriminate|].
  cbn [split_on_separators] in H.
  destruct (split_once sep t) as [[k v]|] eqn:E.
  - injection H as <- _. apply strip_in in Hx.
    now apply (split_once_key_in _ _ E).
  - now apply (IH key val).
Qed.

Lemma first_split_key_colon_free (t key val : str) :
  first_split t = Some (key, val) -> ~ In COLON key.
Proof.
  unfold first_split.
  destruct (split_once [COLON] t) as [[k v]|] eqn:E; intros H Hin.
  - injection H as <- _. apply strip_in in Hin.
    now apply (split_once_char_key _ _ E).
  - apply (split_once_char_none _ _ E).
    now apply (split_on_separators_key_in _ _ H).
Qed.

Lemma rstrip_colon_absent (s : str) : ~ In COLON s -> rstrip_colon s = s.
Proof.
  intro H. unfold rstrip_colon.
  assert (Hd : drop_colons (rev s) = rev s).
  { destruct (rev s) as [|c r] eqn:E; [reflexivity|].
    cbn [drop_colons]. destruct (N.eqb_spec c COLON) as [->|]; [|reflexivity].
    exfalso. apply H, in_rev. rewrite E. now left. }
  now rewrite Hd, rev_involutive.
Qed.

Lemma single_cell_rule_keyed_plain (t : str) :
  single_cell_rule_keyed t
  = match first_split t with
    | Some (key, val) => if truthy key && truthy val then [key; val] else [t]
    | None => [t]
    end.
Proof.
  unfold single_cell_rule_keyed.
  destruct (first_split t) as [[key val]|] eqn:E; [|reflexivity].
  assert (Hfree : ~ In COLON key).
  { eapply first_split_key_colon_free. exact E. }
  rewrite ends_with_colon_absent by exact Hfree.
  rewrite rstrip_colon_absent by exact Hfree.
  now rewrite orb_false_r.
Qed.

(** A label with nothing after its colon is therefore kept whole. *)
Example single_cell_bare_label :
  csv_row [det (lit "Date:") 0 0 10] = inr [lit "Date:"].
Proof. reflexivity. Qed.

(** * Further properties of the extractor *)

(** ** Trimming *)

Lemma lstrip_app (a b : str) :
  lstrip (a ++ b)
  = match lstrip a with
    | [] => lstrip b
    | r => r ++ b
    end.
Proof.
  induction a as [|c a IH]; [reflexivity|].
  cbn [app lstrip]. destruct (is_space c); [exact IH|reflexivity].
Qed.

Lemma rstrip_cons (c : char) (s : str) :
  rstrip (c :: s)
  = match rstrip s with
    | [] => if is_space c then [] else [c]
    | r => c :: r
    end.
Proof.
  unfold rstrip. cbn [rev]. rewrite lstrip_app.
  destruct (lstrip (rev s)) as [|x r] eqn:E.
  - cbn [rev lstrip]. destruct (is_space c); reflexivity.
  - rewrite rev_app_distr. cbn [rev app].
    destruct (rev r ++ [x]) eqn:E'; [|reflexivity].
    apply app_eq_nil in E'. destruct E'; discriminate.
Qed.

Lemma lstrip_head (c : char) (s : str) :
  is_space c = false -> lstrip (c :: s) = c :: s.
Proof. intro H. cbn [lstrip]. now rewrite H. Qed.

Lemma lstrip_idempotent (s : str) : lstrip (lstrip s) = lstrip s.
Proof.
  induction s as [|c s IH]; [reflexivity|].
  cbn [lstrip]. destruct (is_space c) eqn:E; [exact IH|].
  now apply lstrip_head.
Qed.

Lemma rstrip_idempotent (s : str) : rstrip (rstrip s) = rstrip s.
Proof.
  unfold rstrip. now rewrite rev_involutive, lstrip_idempotent.
Qed.

Lemma lstrip_rstrip (s : str) : lstrip (rstrip s) = rstrip (lstrip s).
Proof.
  induction s as [|c s IH]; [reflexivity|].
  rewrite rstrip_cons. destruct (is_space c) eqn:E.
  - cbn [lstrip]. rewrite E, <- IH.
    destruct (rstrip s) as [|x r]; [reflexivity|].
    cbn [lstrip]. now rewrite E.
  - rewrite (lstrip_head c s E), rstrip_cons, E.
    destruct (rstrip s) as [|x r]; now apply lstrip_head.
Qed.

Lemma strip_idempotent (s : str) : strip (strip s) = strip s.
Proof.
  unfold strip.
  now rewrite lstrip_rstrip, lstrip_idempotent, rstrip_idempotent.
Qed.

Lemma strip_blank (s : str) : Forall (fun c => is_space c = true) s -> strip s = [].
Proof.
  intro H. unfold strip.
  assert (Hl : lstrip s = []).
  { induction H as [|c s Hc _ IH]; [reflexivity|].
    cbn [lstrip]. now rewrite Hc. }
  now rewrite Hl.
Qed.

(** ** White space does not carry content *)

Lemma split_ws_from_replace (s : str) :
  forall cur,
    split_ws_from cur (replace_char NBSP SPACE s) = split_ws_from cur s.
Proof.
  induction s as [|c s IH]; intro cur; [reflexivity|].
  unfold replace_char in *. cbn [map split_ws_from].
  destruct (N.eqb_spec c NBSP) as [->|Hc].
  - change (is_space SPACE) with true. change (is_space NBSP) with true.
    destruct cur; now rewrite IH.
  - destruct (is_space c); [destruct cur|]; now rewrite IH.
Qed.

Lemma split_ws_lstrip (s : str) : split_ws (lstrip s) = split_ws s.
Proof.
  unfold split_ws. induction s as [|c s IH]; [reflexivity|].
  cbn [lstrip split_ws_from]. destruct (is_space c) eqn:E; [exact IH|].
  cbn [split_ws_from]. now rewrite E.
Qed.

Lemma split_ws_from_rstrip (s : str) :
  forall cur, split_ws_from cur (rstrip s) = split_ws_from cur s.
Proof.
  induction s as [|c s IH]; intro cur; [reflexivity|].
  rewrite rstrip_cons. destruct (rstrip s) as [|x r] eqn:E.
  - destruct (is_space c) eqn:Ec.
    + cbn [split_ws_from]. rewrite Ec.
      destruct cur as [|y cur]; rewrite <- IH; reflexivity.
    + cbn [split_ws_from]. rewrite Ec. now rewrite <- IH.
  - cbn [split_ws_from]. destruct (is_space c); [destruct cur|];
      now rewrite <- IH.
Qed.

Lemma split_ws_strip (s : str) : split_ws (strip s) = split_ws s.
Proof.
  unfold strip, split_ws. rewrite split_ws_from_rstrip.
  apply split_ws_lstrip.
Qed.

(** ** The normal form of a cell *)

(** X1. The normalised cell is the sequence of white-space-free words of
    the text joined by single spaces: normalisation changes white space
    only, every word (number, unit, date) is kept as it is and in
    order. *)
Theorem normalize_cell_words (t : str) :
  _normalize_cell t = join [SPACE] (split_ws t)
  /\ split_ws (_normalize_cell t) = split_ws t
  /\ Forall word (split_ws t).
Proof.
  assert (Hw : Forall word (split_ws t)).
  { apply split_ws_from_words. constructor. }
  assert (Hn : _normalize_cell t = join [SPACE] (split_ws t)).
  { unfold _normalize_cell. cbv zeta. rewrite split_ws_strip.
    unfold split_ws. now rewrite split_ws_from_replace. }
  split; [exact Hn|]. split; [|exact Hw].
  rewrite Hn. now apply split_join.
Qed.

Lemma normalize_cell_join_words (t : str) :
  exists ws, Forall word ws /\ _normalize_cell t = join [SPACE] ws.
Proof.
  exists (split_ws (strip (replace_char NBSP SPACE t))). split.
  - apply split_ws_from_words. constructor.
  - reflexivity.
Qed.

(** X2. A normalised cell has no white space at its ends, and the only
    white-space character left in it is the ordinary space (no
    non-breaking space, tab or line break); a text of white space only
    normalises to the empty string. *)
Theorem normalize_cell_trimmed (t : str) :
  strip (_normalize_cell t) = _normalize_cell t
  /\ Forall (fun c => is_space c = true -> c = SPACE) (_normalize_cell t)
  /\ (Forall (fun c => is_space c = true) t -> _normalize_cell t = []).
Proof.
  destruct (normalize_cell_join_words t) as (ws & Hws & Hn).
  split; [|split].
  - rewrite Hn. now apply strip_join.
  - rewrite Hn. apply join_forall.
    + repeat constructor.
    + eapply Forall_impl; [|exact Hws].
      intros w [_ Hw]. eapply Forall_impl; [|exact Hw].
      intros c Hc Hs. unfold nonspace in Hc. congruence.
  - intro Hblank. unfold _normalize_cell. cbv zeta.
    rewrite strip_blank; [reflexivity|].
    unfold replace_char. apply Forall_map.
    eapply Forall_impl; [|exact Hblank].
    intros c Hc. cbv beta. destruct (c =? NBSP)%N; [reflexivity|exact Hc].
Qed.

Lemma normalize_cell_trimmed_witness :
  Forall (fun c => is_space c = true) [SPACE; NBSP; 9%N]
  /\ _normalize_cell [SPACE; NBSP; 9%N] = [].
Proof.
  assert (H : Forall (fun c => is_space c = true) [SPACE; NBSP; 9%N]).
  { repeat constructor. }
  split; [exact H|].
  exact (proj2 (proj2 (normalize_cell_trimmed [SPACE; NBSP; 9%N])) H).
Defined.

(** ** Key/value splitting *)

Lemma strip_prefix_app (p s r : str) : strip_prefix p s = Some r -> s = p ++ r.
Proof.
  revert s. induction p as [|x p IH]; intros s H.
  - injection H as <-. reflexivity.
  - destruct s as [|y s]; [discriminate|]. cbn [strip_prefix] in H.
    destruct (N.eqb_spec x y) as [->|]; [|discriminate].
    cbn [app]. f_equal. now apply IH.
Qed.

Lemma split_once_app (sep s : str) :
  forall k v, split_once sep s = Some (k, v) -> s = k ++ sep ++ v.
Proof.
  induction s as [|c s IH]; intros k v H; cbn [split_once] in H.
  - destruct (strip_prefix sep []) eqn:E; [|discriminate].
    injection H as <- <-. exact (strip_prefix_app _ _ E).
  - destruct (strip_prefix sep (c :: s)) eqn:E.
    + injection H as <- <-. exact (strip_prefix_app _ _ E).
    + destruct (split_once sep s) as [[k' v']|] eqn:E'; [|discriminate].
      injection H as <- <-. cbn [app]. f_equal. now apply IH.
Qed.

Lemma split_on_separators_app (seps : list str) (t : str) :
  forall key val,
    split_on_separators seps t = Some (key, val) ->
    exists sep k v,
      In sep seps /\ t = k ++ sep ++ v /\ key = strip k /\ val = strip v.
Proof.
  induction seps as [|sep seps IH]; intros key val H; [discriminate|].
  cbn [split_on_separators] in H.
  destruct (split_once sep t) as [[k v]|] eqn:E.
  - injection H as <- <-. exists sep, k, v.
    split; [now left|]. split; [now apply split_once_app|]. now split.
  - destruct (IH key val H) as (sep' & k & v & Hin & Ht & Hk & Hv).
    exists sep', k, v. split; [now right|]. now split.
Qed.

(** X3. [_split_key_value] loses nothing but the separator and the white
    space around it. Either the text is [k + ":" + v] with no colon in
    [k] (the split is at the first colon), or it has no colon and is
    [k + sep + v] for one of the three dash separators, and the result
    is the pair of [k] and [v], both trimmed; or it has no colon and the
    result is the trimmed text with an empty value. *)
Theorem split_key_value_parts (t : str) :
  (exists k v,
      t = k ++ [COLON] ++ v
      /\ ~ In COLON k
      /\ _split_key_value t = (strip k, strip v))
  \/ (~ In COLON t
      /\ exists sep k v,
          In sep SEPARATORS
          /\ t = k ++ sep ++ v
          /\ _split_key_value t = (strip k, strip v))
  \/ (~ In COLON t /\ _split_key_value t = (strip t, [])).
Proof.
  unfold _split_key_value.
  destruct (split_once [COLON] t) as [[k v]|] eqn:E.
  - left. exists k, v.
    split; [now apply split_once_app|].
    split; [|reflexivity]. eapply split_once_char_key. exact E.
  - right. apply split_once_char_none in E.
    destruct (split_on_separators SEPARATORS t) as [[key val]|] eqn:E'.
    + left. split; [exact E|].
      destruct (split_on_separators_app _ _ E')
        as (sep & k & v & Hin & Ht & -> & ->).
      exists sep, k, v. now split.
    + right. now split.
Qed.

(** X4. The key returned by [_split_key_value] never holds a colon, and
    key and value are trimmed: trimming them again changes nothing. *)
Theorem split_key_value_clean (t : str) :
  ~ In COLON (fst (_split_key_value t))
  /\ strip (fst (_split_key_value t)) = fst (_split_key_value t)
  /\ strip (snd (_split_key_value t)) = snd (_split_key_value t).
Proof.
  unfold _split_key_value.
  destruct (split_once [COLON] t) as [[k v]|] eqn:E; cbn [fst snd].
  - split; [|split; apply strip_idempotent].
    intro H. apply strip_in in H. revert H.
    eapply split_once_char_key. exact E.
  - apply split_once_char_none in E.
    destruct (split_on_separators SEPARATORS t) as [[key val]|] eqn:E';
      cbn [fst snd].
    + destruct (split_on_separators_app _ _ E')
        as (sep & k & v & _ & _ & Hk & Hv).
      split; [|subst key val; split; apply strip_idempotent].
      intro H. apply E. eapply split_on_separators_key_in; eassumption.
    + split; [|split; [apply strip_idempotent|reflexivity]].
      intro H. apply E. now apply strip_in.
Qed.

(** ** The layout reader *)

Lemma py_max_ge_r (a b : Q) : b <= py_max a b.
Proof.
  unfold py_max. destruct (Qltb a b) eqn:E.
  - apply Qle_refl.
  - now apply Qltb_false.
Qed.

Lemma py_max_ge_l (a b : Q) : a <= py_max a b.
Proof.
  unfold py_max. destruct (Qltb a b) eqn:E.
  - apply Qlt_le_weak. now apply Qltb_true.
  - apply Qle_refl.
Qed.

Lemma py_min_le (xs : list Q) :
  forall x, py_min x xs <= x /\ Forall (fun y => py_min x xs <= y) xs.
Proof.
  unfold py_min. induction xs as [|y xs IH]; intro x; cbn [fold_left].
  - split; [apply Qle_refl|constructor].
  - destruct (IH (if Qltb y x then y else x)) as [Hm Hall].
    destruct (Qltb y x) eqn:E.
    + apply Qltb_true in E. split; [|now constructor].
      eapply Qle_trans; [exact Hm|]. now apply Qlt_le_weak.
    + apply Qltb_false in E. split; [exact Hm|].
      constructor; [|exact Hall]. eapply Qle_trans; eassumption.
Qed.

Lemma layout_item_sound (r : ocr_result) (d : detection) :
  layout_item r = Some d ->
  text d <> []
  /\ text d = strip (snd (fst r))
  /\ box d = fst (fst r)
  /\ 1 <= height d
  /\ _box_height (box d) <= height d
  /\ x_min d <= center_x d.
Proof.
  destruct r as [[b t] conf]. cbn [layout_item fst snd].
  destruct (truthy (strip t)) eqn:Et; [|discriminate].
  unfold _box_center.
  destruct (py_min_le [fst (p1 b); fst (p2 b); fst (p3 b)] (fst (p0 b)))
    as [H0 Hall].
  inversion Hall as [|? ? H1 Hall1]; subst.
  inversion Hall1 as [|? ? H2 Hall2]; subst.
  inversion Hall2 as [|? ? H3 _]; subst.
  clear Hall Hall1 Hall2.
  remember (py_min (fst (p0 b)) [fst (p1 b); fst (p2 b); fst (p3 b)]) as m.
  clear Heqm.
  intro H. injection H as <-.
  cbn [text box height x_min center_x].
  split; [intro H; rewrite H in Et; discriminate|].
  split; [reflexivity|]. split; [reflexivity|].
  split; [apply py_max_ge_r|]. split; [apply py_max_ge_l|].
  apply Qle_shift_div_l; [reflexivity|].
  unfold py_sum. cbn [fold_left]. lra.
Qed.

Lemma layout_of_in (results : list ocr_result) (d : detection) :
  In d (layout_of results) ->
  exists r, In r results /\ layout_item r = Some d.
Proof.
  unfold layout_of. intro H.
  apply (Permutation_in _ (sorted_with_perm _ _)) in H.
  apply in_flat_map in H. destruct H as (r & Hr & Hd).
  exists r. split; [exact Hr|].
  destruct (layout_item r) as [d'|]; [|destruct Hd].
  destruct Hd as [->|[]]. reflexivity.
Qed.

(** X5. Whatever the engine returns, [read_layout] calls it once, does
    not fail, and hands over its items in reading order: ascending
    [(center_y, x_min)]. *)
Theorem read_layout_reading_order (image : Type) (W : world image)
  (img : image) (tr : list event) :
  exists items,
    read_layout W img tr = (inr items, tr ++ [CallReadtext])
    /\ Sorted reading_le items.
Proof.
  eexists. split; [reflexivity|]. apply layout_of_reading_order.
Qed.

(** X6. Every item of [read_layout] has a non-empty text without white
    space at its ends, a height of at least 1 (and at least the height
    of its box), and a left edge [x_min] that is not to the right of its
    centre. *)
Theorem read_layout_items_sound (results : list ocr_result) :
  Forall (fun d =>
            text d <> []
            /\ strip (text d) = text d
            /\ 1 <= height d
            /\ _box_height (box d) <= height d
            /\ x_min d <= center_x d)
         (layout_of results).
Proof.
  apply Forall_forall. intros d Hd.
  destruct (layout_of_in _ _ Hd) as (r & _ & Hr).
  destruct (layout_item_sound _ Hr) as (Ht & Hs & _ & Hh & Hb & Hx).
  split; [exact Ht|]. split; [|now split].
  rewrite Hs. apply strip_idempotent.
Qed.

Lemma layout_items_conf (r r' : ocr_result) :
  fst r = fst r' ->
  layout_item r = layout_item r'.
Proof.
  destruct r as [[b t] c], r' as [[b' t'] c']. cbn [fst].
  intro H. injection H as <- <-. reflexivity.
Qed.

(** X7. The confidence of a detection is never used: two engine outputs
    with the same boxes and texts give the same items, whatever their
    confidences. *)
Theorem read_layout_ignores_confidence (results results' : list ocr_result) :
  map fst results = map fst results' ->
  layout_of results = layout_of results'.
Proof.
  intro H. unfold layout_of. f_equal.
  revert results' H.
  induction results as [|r results IH]; intros [|r' results'] H;
    try discriminate; [reflexivity|].
  cbn [map] in H. injection H as Hr Hrest.
  cbn [flat_map]. rewrite (layout_items_conf _ _ Hr). f_equal.
  now apply IH.
Qed.

Lemma read_layout_ignores_confidence_witness :
  map fst [({| p0 := (0, 0); p1 := (4, 0); p2 := (4, 2); p3 := (0, 2) |},
            lit "a", 1 # 10)]
  = map fst [({| p0 := (0, 0); p1 := (4, 0); p2 := (4, 2); p3 := (0, 2) |},
              lit "a", 9 # 10)]
  /\ layout_of [({| p0 := (0, 0); p1 := (4, 0); p2 := (4, 2); p3 := (0, 2) |},
                 lit "a", 1 # 10)]
     = layout_of [({| p0 := (0, 0); p1 := (4, 0); p2 := (4, 2); p3 := (0, 2) |},
                   lit "a", 9 # 10)].
Proof.
  split; [reflexivity|].
  apply read_layout_ignores_confidence. reflexivity.
Defined.

Lemma flat_map_kept_length (results : list ocr_result) :
  length (flat_map (fun r => match layout_item r with
                             | Some d => [d]
                             | None => []
                             end) results)
  = length (filter (fun r => truthy (strip (snd (fst r)))) results).
Proof.
  induction results as [|[[b t] c] results IH]; [reflexivity|].
  cbn [flat_map filter fst snd layout_item].
  destruct (truthy (strip t)).
  - destruct (_box_center b). cbn [app length]. now rewrite IH.
  - exact IH.
Qed.

(** X8. [read_layout] keeps one item for each engine result whose text
    is not blank and drops the others: the number of items is the
    number of results with a non-blank text, so no more than the number
    of results, and none when every text is blank. *)
Theorem read_layout_drops_blank (results : list ocr_result) :
  length (layout_of results)
  = length (filter (fun r => truthy (strip (snd (fst r)))) results)
  /\ (length (layout_of results) <= length results)%nat
  /\ (Forall (fun r => strip (snd (fst r)) = []) results ->
      layout_of results = []).
Proof.
  assert (Hlen : length (layout_of results)
                 = length (filter (fun r => truthy (strip (snd (fst r))))
                                  results)).
  { unfold layout_of.
    rewrite (Permutation_length (sorted_with_perm _ _)).
    apply flat_map_kept_length. }
  split; [exact Hlen|]. split.
  - rewrite Hlen. apply filter_length_le.
  - intro Hblank. apply length_zero_iff_nil. rewrite Hlen. clear Hlen.
    induction Hblank as [|r results Hr _ IH]; [reflexivity|].
    cbn [filter]. rewrite Hr. exact IH.
Qed.

Lemma read_layout_drops_blank_witness :
  Forall (fun r : ocr_result => strip (snd (fst r)) = [])
    [({| p0 := (0, 0); p1 := (4, 0); p2 := (4, 2); p3 := (0, 2) |},
      [SPACE; NBSP], 1)]
  /\ layout_of
       [({| p0 := (0, 0); p1 := (4, 0); p2 := (4, 2); p3 := (0, 2) |},
         [SPACE; NBSP], 1)] = [].
Proof.
  assert (H : Forall (fun r : ocr_result => strip (snd (fst r)) = [])
                [({| p0 := (0, 0); p1 := (4, 0); p2 := (4, 2); p3 := (0, 2) |},
                  [SPACE; NBSP], 1)]).
  { repeat constructor. }
  split; [exact H|].
  exact (proj2 (proj2 (read_layout_drops_blank _)) H).
Defined.

(** ** More on the row grouper *)

Lemma concat_length_ge (A : Type) (segs : list (list A)) :
  Forall (fun s => s <> []) segs ->
  (length segs <= length (concat segs))%nat.
Proof.
  induction 1 as [|s segs Hs _ IH]; [apply Nat.le_refl|].
  cbn [concat length]. rewrite length_app.
  destruct s; [congruence|]. simpl. lia.
Qed.

(** X9. The rows of [group_rows] are consecutive runs of the input: the
    input is cut into non-empty consecutive segments, and each row is
    one segment sorted by [x_min] (a stable sort), the rows in the order
    of the segments. *)
Theorem group_rows_contiguous (items : list detection) :
  exists segs,
    concat segs = items
    /\ Forall (fun s => s <> []) segs
    /\ group_rows items = map (sorted_by x_min) segs.
Proof.
  destruct (group_rows_segments items) as (segs & Hrows & Hcat & Hne).
  exists segs. auto.
Qed.

(** X10. [group_rows] returns at most as many rows as there are
    detections, and at least one row for a non-empty input. *)
Theorem group_rows_count (items : list detection) :
  (length (group_rows items) <= length items)%nat
  /\ (items <> [] -> (1 <= length (group_rows items))%nat).
Proof.
  destruct (group_rows_segments items) as (segs & -> & <- & Hne).
  rewrite length_map. split.
  - now apply concat_length_ge.
  - intro H. destruct segs; [now elim H|]. simpl. lia.
Qed.

Lemma group_rows_count_witness :
  sample_items <> [] /\ (1 <= length (group_rows sample_items))%nat.
Proof.
  assert (H : sample_items <> []) by discriminate.
  split; [exact H|]. exact (proj2 (group_rows_count sample_items) H).
Defined.

Lemma Qabs_le_split (x y : Q) : Qabs x <= y <-> - y <= x /\ x <= y.
Proof. apply Qabs_Qle_condition. Qed.

(** When every centre of [items] is within [tol] of the anchor and of
    every other centre, the scan keeps one open row. *)
Lemma scan_band (tol : Q) (items : list detection) :
  (forall d e, In d items -> In e items ->
               Qabs (center_y d - center_y e) <= tol) ->
  forall l st a,
    incl l items ->
    last_y st = Some a ->
    (forall e, In e items -> Qabs (center_y e - a) <= tol) ->
    rows (fold_left (scan_step tol) l st) = rows st
    /\ current (fold_left (scan_step tol) l st) = current st ++ l.
Proof.
  intros Hband l. induction l as [|d l IH]; intros st a Hl Hy Hnear.
  - cbn [fold_left]. now rewrite app_nil_r.
  - cbn [fold_left].
    assert (Hd : In d items) by (apply Hl; now left).
    assert (Hstep : scan_step tol st d
                    = {| rows := rows st;
                         current := current st ++ [d];
                         last_y := Some ((a + center_y d) / 2) |}).
    { unfold scan_step. rewrite Hy.
      assert (Hj : Qle_bool (Qabs (center_y d - a)) tol = true).
      { apply Qle_bool_iff. now apply Hnear. }
      now rewrite Hj. }
    rewrite Hstep.
    destruct (IH {| rows := rows st;
                    current := current st ++ [d];
                    last_y := Some ((a + center_y d) / 2) |}
                 ((a + center_y d) / 2)) as [Hr Hc].
    + intros x Hx. apply Hl. now right.
    + reflexivity.
    + intros e He.
      pose proof (Hnear e He) as H1. pose proof (Hband e d He Hd) as H2.
      apply Qabs_le_split in H1. apply Qabs_le_split in H2.
      apply Qabs_le_split.
      assert (Hhalf : (a + center_y d) / 2 == (a + center_y d) * (1 # 2)).
      { unfold Qdiv. reflexivity. }
      rewrite Hhalf. split; lra.
    + cbn [rows current] in Hr, Hc. split; [exact Hr|].
      rewrite Hc, <- app_assoc. reflexivity.
Qed.

Lemma group_rows_band (items : list detection) :
  items <> [] ->
  (forall d e, In d items -> In e items ->
               Qabs (center_y d - center_y e) <= y_tol items) ->
  group_rows items = [sorted_by x_min items].
Proof.
  intros Hne Hband. destruct items as [|d0 l]; [congruence|].
  unfold group_rows, scan. cbn [fold_left].
  change (scan_step (y_tol (d0 :: l)) scan_init d0)
    with {| rows := []; current := [d0]; last_y := Some (center_y d0) |}.
  destruct (@scan_band (y_tol (d0 :: l)) (d0 :: l) Hband l
              {| rows := []; current := [d0]; last_y := Some (center_y d0) |}
              (center_y d0)) as [Hr Hc].
  - intros x Hx. now right.
  - reflexivity.
  - intros e He. apply Hband; [exact He|now left].
  - unfold scan_finish. rewrite Hr, Hc. reflexivity.
Qed.

(** X11. If the centres of all detections lie within the tolerance of
    one another, [group_rows] returns exactly one row: all detections,
    sorted by [x_min]. *)
Theorem group_rows_single_band (items : list detection) :
  items <> [] ->
  (forall d e, In d items -> In e items ->
               Qabs (center_y d - center_y e) <= y_tol items) ->
  group_rows items = [sorted_by x_min items].
Proof. exact (@group_rows_band items). Qed.

Lemma group_rows_single_band_witness :
  [det (lit "b") 0 5 10; det (lit "a") 6 1 10] <> []
  /\ group_rows [det (lit "b") 0 5 10; det (lit "a") 6 1 10]
     = [sorted_by x_min [det (lit "b") 0 5 10; det (lit "a") 6 1 10]].
Proof.
  split; [discriminate|].
  apply group_rows_single_band; [discriminate|].
  intros d e [<-|[<-|[]]] [<-|[<-|[]]]; vm_compute; discriminate.
Defined.



(** *** Gaps larger than the tolerance *)











(** ** More on the CSV assembly *)

Lemma csv_rows_of_error (rows : list (list detection)) (e : exn) :
  csv_rows_of rows = inl e ->
  e = IndexError /\ Exists (fun r => r = []) rows.
Proof.
  induction rows as [|row rows IH]; [discriminate|].
  cbn [csv_rows_of]. destruct row as [|d row].
  - change (csv_row []) with (@inl exn (list str) IndexError).
    intro H. injection H as <-. split; [reflexivity|now left].
  - destruct (@csv_row_nonempty (d :: row)) as (r & -> & _); [discriminate|].
    destruct (csv_rows_of rows) as [e'|rs]; [|discriminate].
    intro H. injection H as <-.
    destruct (IH eq_refl) as [He Hex]. split; [exact He|now right].
Qed.

Lemma csv_rows_of_length (rows : list (list detection))
  (csv_rows : list (list str)) :
  csv_rows_of rows = inr csv_rows -> length csv_rows = length rows.
Proof.
  revert csv_rows. induction rows as [|row rows IH]; intros csv_rows H.
  - injection H as <-. reflexivity.
  - cbn [csv_rows_of] in H. destruct (csv_row row); [discriminate|].
    destruct (csv_rows_of rows) as [|rs]; [discriminate|].
    injection H as <-. cbn [length]. f_equal. now apply IH.
Qed.

(** X14. [rows_to_csv] fails exactly when some row holds no detection,
    and then with [IndexError] (from [texts[0]]); on rows that all hold
    a detection it returns a result. *)
Theorem rows_to_csv_failure (rows : list (list detection)) :
  (forall e, rows_to_csv rows = inl e -> e = IndexError)
  /\ (rows_to_csv rows = inl IndexError <-> Exists (fun r => r = []) rows)
  /\ (Forall (fun r => r <> []) rows <-> exists csv, rows_to_csv rows = inr csv).
Proof.
  unfold rows_to_csv.
  destruct (csv_rows_of rows) as [e|csv_rows] eqn:E.
  - destruct (csv_rows_of_error _ E) as [-> Hex].
    split; [intros e H; now injection H as <-|].
    split; [split; [intros _; exact Hex|reflexivity]|].
    split; [|intros (csv & H); discriminate].
    intro Hall. exfalso.
    apply Exists_exists in Hex. destruct Hex as (r & Hr & ->).
    rewrite Forall_forall in Hall. now apply (Hall [] Hr).
  - split; [intros e H; discriminate|].
    assert (Hall : Forall (fun r => r <> []) rows).
    { apply Forall_forall. intros r Hr ->.
      assert (Hex : Exists (fun r => r = []) rows).
      { apply Exists_exists. now exists []. }
      clear Hr. revert csv_rows E.
      induction Hex as [r rows Hr|r rows _ IH]; intros csv_rows E.
      - subst r. discriminate E.
      - cbn [csv_rows_of] in E. destruct (csv_row r); [discriminate|].
        destruct (csv_rows_of rows) as [|rs]; [discriminate|].
        now apply (IH rs). }
    split.
    + split; [discriminate|].
      intro Hex. exfalso.
      apply Exists_exists in Hex. destruct Hex as (r & Hr & ->).
      rewrite Forall_forall in Hall. now apply (Hall [] Hr).
    + split; [intros _; eexists; reflexivity|intros _; exact Hall].
Qed.

Lemma merge_lookahead_length (csv_rows : list (list str)) :
  (length (merge_lookahead csv_rows) <= length csv_rows)%nat
  /\ (length csv_rows <= 2 * length (merge_lookahead csv_rows))%nat.
Proof.
  induction csv_rows as [|x|x y l IHl IHy] using list_pair_ind.
  - simpl. lia.
  - rewrite merge_lookahead_single. simpl. lia.
  - destruct ((length x =? 1)%nat && (3 <=? length y)%nat) eqn:E.
    + apply andb_true_iff in E. destruct E as [E1 E3].
      destruct x as [|title [|t' x]]; try discriminate.
      rewrite merge_lookahead_merge by exact E3.
      cbn [length]. lia.
    + rewrite merge_lookahead_pass by exact E.
      cbn [length] in *. lia.
Qed.

(** The cells of the merged rows are the cells of the rows, in order;
    a title has the tag in front. *)
Lemma merge_lookahead_cells (csv_rows : list (list str)) :
  Forall2 (fun c c' => c' = c \/ c' = SECTION_TAG ++ c)
          (concat csv_rows) (concat (merge_lookahead csv_rows)).
Proof.
  assert (Hrefl : forall cs : list str,
             Forall2 (fun c c' => c' = c \/ c' = SECTION_TAG ++ c) cs cs).
  { induction cs; constructor; auto. }
  induction csv_rows as [|x|x y l IHl IHy] using list_pair_ind.
  - constructor.
  - rewrite merge_lookahead_single. apply Hrefl.
  - destruct ((length x =? 1)%nat && (3 <=? length y)%nat) eqn:E.
    + apply andb_true_iff in E. destruct E as [E1 E3].
      destruct x as [|title [|t' x]]; try discriminate.
      rewrite merge_lookahead_merge by exact E3.
      cbn [concat app]. constructor; [now right|].
      apply Forall2_app; [apply Hrefl|exact IHl].
    + rewrite merge_lookahead_pass by exact E.
      cbn [concat]. apply Forall2_app; [apply Hrefl|exact IHy].
Qed.

(** X15. The section merge keeps every cell, in order: read row after
    row, the cells of the result are the cells of the input, except that
    each merged title has ["[Section] "] in front. No cell is dropped,
    added or moved, and the number of rows shrinks to no less than
    half. *)
Theorem merge_sections_keeps_cells (csv_rows : list (list str)) :
  Forall2 (fun c c' => c' = c \/ c' = lit "[Section] " ++ c)
          (concat csv_rows) (concat (merge_sections csv_rows))
  /\ length (concat (merge_sections csv_rows)) = length (concat csv_rows)
  /\ (length (merge_sections csv_rows) <= length csv_rows)%nat
  /\ (length csv_rows <= 2 * length (merge_sections csv_rows))%nat.
Proof.
  rewrite merge_sections_scan.
  pose proof (merge_lookahead_cells csv_rows) as Hc.
  split; [exact Hc|]. split; [|apply merge_lookahead_length].
  symmetry. eapply Forall2_length. exact Hc.
Qed.

Lemma merge_lookahead_identity (csv_rows : list (list str)) :
  Forall (fun r => length r <> 1%nat) csv_rows
  \/ Forall (fun r => (length r < 3)%nat) csv_rows ->
  merge_lookahead csv_rows = csv_rows.
Proof.
  induction csv_rows as [|x|x y l IHl IHy] using list_pair_ind; intro H.
  - reflexivity.
  - apply merge_lookahead_single.
  - rewrite merge_lookahead_pass.
    + f_equal. apply IHy.
      destruct H as [H|H]; [left|right]; now inversion H.
    + apply andb_false_iff. destruct H as [H|H].
      * left. apply Nat.eqb_neq. now inversion H.
      * right. apply Nat.leb_gt.
        inversion H as [|? ? _ H']; subst. now inversion H'.
Qed.

(** X16. The section merge changes nothing when no row has exactly one
    cell, and nothing when no row has three cells or more. *)
Theorem merge_sections_identity (csv_rows : list (list str)) :
  Forall (fun r => length r <> 1%nat) csv_rows
  \/ Forall (fun r => (length r < 3)%nat) csv_rows ->
  merge_sections csv_rows = csv_rows.
Proof.
  intro H. rewrite merge_sections_scan. now apply merge_lookahead_identity.
Qed.

Lemma merge_sections_identity_witness :
  (Forall (fun r : list str => length r <> 1%nat)
     [[lit "A"; lit "B"; lit "C"]; [lit "D"; lit "E"]]
   \/ Forall (fun r : list str => (length r < 3)%nat)
        [[lit "A"; lit "B"; lit "C"]; [lit "D"; lit "E"]])
  /\ merge_sections [[lit "A"; lit "B"; lit "C"]; [lit "D"; lit "E"]]
     = [[lit "A"; lit "B"; lit "C"]; [lit "D"; lit "E"]].
Proof.
  assert (H : Forall (fun r : list str => length r <> 1%nat)
                [[lit "A"; lit "B"; lit "C"]; [lit "D"; lit "E"]]).
  { repeat constructor; discriminate. }
  split; [now left|]. apply merge_sections_identity. now left.
Defined.

(** X17. From detections to CSV rows: [rows_to_csv] after [group_rows]
    never fails, returns no more CSV rows than there are detections, and
    returns no CSV row exactly when there is no detection. *)
Theorem csv_of_detections (items : list detection) :
  exists csv,
    rows_to_csv (group_rows items) = inr csv
    /\ (length csv <= length items)%nat
    /\ (csv = [] <-> items = []).
Proof.
  destruct (csv_rows_of_nonempty (group_rows_nonempty_rows items))
    as (csv_rows & Hcsv & _).
  exists (merge_sections csv_rows). unfold rows_to_csv. rewrite Hcsv.
  split; [reflexivity|].
  pose proof (csv_rows_of_length _ Hcsv) as Hlen.
  rewrite merge_sections_scan.
  destruct (merge_lookahead_length csv_rows) as [Hle Hge].
  destruct (group_rows_segments items) as (segs & Hrows & Hcat & Hne).
  assert (Hcount : (length (group_rows items) <= length items)%nat).
  { rewrite Hrows, length_map, <- Hcat. now apply concat_length_ge. }
  split; [lia|]. split.
  - intro Hnil. rewrite Hnil in Hge. cbn [length] in Hge.
    assert (Hz : length (group_rows items) = 0%nat) by lia.
    rewrite Hrows, length_map in Hz. apply length_zero_iff_nil in Hz.
    subst segs. now rewrite <- Hcat.
  - intros ->. cbn [group_rows length] in Hlen.
    apply length_zero_iff_nil in Hlen. now subst csv_rows.
Qed.

(** *** Rows of several cells *)

Lemma avg_len_test (total : Z) (n : nat) :
  (1 <= n)%nat ->
  Qle_bool (inject_Z total / inject_Z (Z.max (Z.of_nat n) 1)) 12
  = (total <=? 12 * Z.of_nat n)%Z.
Proof.
  intro Hn. rewrite Z.max_l by lia.
  assert (Hpos : 0 < inject_Z (Z.of_nat n)).
  { replace 0 with (inject_Z 0) by reflexivity. rewrite <- Zlt_Qlt. lia. }
  assert (Hiff : inject_Z total / inject_Z (Z.of_nat n) <= 12
                 <-> (total <= 12 * Z.of_nat n)%Z).
  { rewrite Zle_Qle, inject_Z_mult. change (inject_Z 12) with 12. split.
    - intro H.
      assert (Heq : inject_Z total
                    == inject_Z total / inject_Z (Z.of_nat n)
                       * inject_Z (Z.of_nat n)).
      { rewrite Qmult_comm, Qmult_div_r; [reflexivity|].
        intro Hz. rewrite Hz in Hpos. discriminate Hpos. }
      rewrite Heq. apply Qmult_le_compat_r; [exact H|].
      now apply Qlt_le_weak.
    - intro H. now apply Qle_shift_div_r. }
  destruct (Z.leb_spec total (12 * Z.of_nat n)) as [Hle|Hgt].
  - apply Qle_bool_iff. now apply Hiff.
  - destruct (Qle_bool _ 12) eqn:E; [|reflexivity].
    apply Qle_bool_iff, Hiff in E. lia.
Qed.

(** X18. Rows of two cells or more. A row of at least three cells whose
    normalised texts have at most 12 characters on average (their total
    length is at most 12 times their number) is emitted cell by cell,
    also when its first cell ends with a colon. Any other row of two
    cells or more becomes the pair of its first cell without trailing
    colons and the other cells joined by single spaces when the first
    cell ends with a colon, and is emitted cell by cell otherwise. *)
Theorem csv_row_several_cells (d1 d2 : detection) (more : list detection) :
  let row_items := d1 :: d2 :: more in
  let texts := map (fun it => _normalize_cell (text it)) row_items in
  let first := _normalize_cell (text d1) in
  let n := Z.of_nat (length row_items) in
  ((3 <= n)%Z /\ (total_len texts <= 12 * n)%Z ->
   csv_row row_items = inr texts)
  /\ (~ ((3 <= n)%Z /\ (total_len texts <= 12 * n)%Z) ->
      csv_row row_items
      = inr (if ends_with_colon first
             then [rstrip_colon first;
                   join [SPACE]
                     (map (fun it => _normalize_cell (text it)) (d2 :: more))]
             else texts)).
Proof.
  intros row_items texts first n.
  assert (Hrow : csv_row row_items
                 = if (3 <=? length texts)%nat
                      && (total_len texts <=? 12 * Z.of_nat (length texts))%Z
                   then inr texts
                   else if ends_with_colon first
                        then inr [rstrip_colon first;
                                  join [SPACE]
                                    (map (fun it => _normalize_cell (text it))
                                         (d2 :: more))]
                        else inr texts).
  { unfold csv_row. fold texts.
    rewrite avg_len_test by (subst texts row_items; simpl; lia).
    destruct ((3 <=? length texts)%nat && _); [reflexivity|].
    subst texts row_items. cbn [map length Nat.eqb nth_error skipn].
    fold first. cbn [Nat.leb]. now rewrite andb_true_r. }
  assert (Hlen : Z.of_nat (length texts) = n).
  { subst texts n. now rewrite length_map. }
  rewrite Hrow, Hlen. split.
  - intros [H3 Hmean].
    assert (H3' : (3 <=? length texts)%nat = true).
    { apply Nat.leb_le. lia. }
    assert (Hm' : (total_len texts <=? 12 * n)%Z = true).
    { now apply Z.leb_le. }
    now rewrite H3', Hm'.
  - intro Hnot.
    destruct ((3 <=? length texts)%nat && (total_len texts <=? 12 * n)%Z)
      eqn:E.
    + exfalso. apply Hnot. apply andb_true_iff in E. destruct E as [E1 E2].
      apply Nat.leb_le in E1. apply Z.leb_le in E2. split; [lia|exact E2].
    + destruct (ends_with_colon first); reflexivity.
Qed.

Lemma csv_row_several_cells_witness :
  ((3 <= Z.of_nat (length [det (lit "Qty:") 0 0 10; det (lit "5") 0 5 10;
                           det (lit "pcs") 0 9 10]))%Z
   /\ (total_len (map (fun it => _normalize_cell (text it))
                      [det (lit "Qty:") 0 0 10; det (lit "5") 0 5 10;
                       det (lit "pcs") 0 9 10])
       <= 12 * Z.of_nat (length [det (lit "Qty:") 0 0 10; det (lit "5") 0 5 10;
                                 det (lit "pcs") 0 9 10]))%Z)
  /\ csv_row [det (lit "Qty:") 0 0 10; det (lit "5") 0 5 10;
              det (lit "pcs") 0 9 10]
     = inr [lit "Qty:"; lit "5"; lit "pcs"].
Proof.
  assert (H : (3 <= Z.of_nat (length [det (lit "Qty:") 0 0 10;
                                      det (lit "5") 0 5 10;
                                      det (lit "pcs") 0 9 10]))%Z
              /\ (total_len (map (fun it => _normalize_cell (text it))
                                 [det (lit "Qty:") 0 0 10; det (lit "5") 0 5 10;
                                  det (lit "pcs") 0 9 10])
                  <= 12 * Z.of_nat (length [det (lit "Qty:") 0 0 10;
                                            det (lit "5") 0 5 10;
                                            det (lit "pcs") 0 9 10]))%Z).
  { split; vm_compute; discriminate. }
  split; [exact H|].
  exact (proj1 (csv_row_several_cells (det (lit "Qty:") 0 0 10)
                  (det (lit "5") 0 5 10) [det (lit "pcs") 0 9 10]) H).
Defined.

(** A label and its value: the example of the specification. *)
Example csv_row_label_pair :
  csv_row [det (lit "Qty:") 0 0 10; det (lit "5") 0 5 10]
  = inr [lit "Qty"; lit "5"].
Proof. reflexivity. Qed.

(** ** More on pre-processing *)

Lemma upscaled_larger_side_check :
  forallb (fun d =>
    match int_of_float (float_of_int d * (1400.0 / float_of_int d))%float with
    | Some n => (n =? 1399)%Z || (n =? 1400)%Z
    | None => false
    end) (map Z.of_nat (seq 1 1399)) = true.
Proof. vm_compute. reflexivity. Qed.

Lemma upscaled_larger_side (d n : Z) :
  (1 <= d < 1400)%Z ->
  int_of_float (float_of_int d * (1400.0 / float_of_int d))%float = Some n ->
  n = 1399%Z \/ n = 1400%Z.
Proof.
  intros Hd Hn.
  pose proof upscaled_larger_side_check as H.
  rewrite forallb_forall in H. specialize (H d).
  rewrite Hn in H.
  assert (Hin : In d (map Z.of_nat (seq 1 1399))).
  { apply in_map_iff. exists (Z.to_nat d). split; [lia|].
    apply in_seq. lia. }
  apply H in Hin. apply orb_true_iff in Hin.
  destruct Hin as [Hin|Hin]; apply Z.eqb_eq in Hin; auto.
Qed.

(** X19. The size [preprocess] asks [cv2.resize] for. An image whose
    larger dimension is at least 1400 is not resized; an image without
    pixels makes the division fail; and whenever a non-empty image is
    resized, its larger dimension was below 1400 and becomes 1399 or
    1400, never more. *)
Theorem upscaled_size_bounds (h w : Z) :
  ((1400 <= Z.max h w)%Z -> upscaled_size h w = inr None)
  /\ (Z.max h w = 0%Z -> upscaled_size h w = inl ZeroDivisionError)
  /\ (forall nw nh,
         (0 <= h)%Z -> (0 <= w)%Z ->
         upscaled_size h w = inr (Some (nw, nh)) ->
         (Z.max h w < 1400)%Z
         /\ ((h <= w)%Z -> nw = 1399%Z \/ nw = 1400%Z)
         /\ ((w <= h)%Z -> nh = 1399%Z \/ nh = 1400%Z)).
Proof.
  split; [apply upscaled_size_large|]. split.
  - intro H0. unfold upscaled_size. rewrite H0. reflexivity.
  - intros nw nh Hh Hw H. unfold upscaled_size in H.
    destruct (Z.ltb_spec (Z.max h w) 1400) as [Hlt|]; [|discriminate].
    destruct (Z.eqb_spec (Z.max h w) 0) as [|Hnz]; [discriminate|].
    destruct (int_of_float (float_of_int w * _)) as [a|] eqn:Ea;
      [|discriminate].
    destruct (int_of_float (float_of_int h * _)) as [b|] eqn:Eb;
      [|discriminate].
    injection H as <- <-.
    split; [exact Hlt|]. split; intro Hle.
    + rewrite Z.max_r in Ea by exact Hle.
      apply (@upscaled_larger_side w a); [lia|exact Ea].
    + rewrite Z.max_l in Eb by exact Hle.
      apply (@upscaled_larger_side h b); [lia|exact Eb].
Qed.

Lemma upscaled_size_bounds_witness :
  (0 <= 700)%Z /\ (0 <= 1399)%Z
  /\ upscaled_size 700 1399 = inr (Some (1400, 700)%Z)
  /\ ((700 <= 1399)%Z -> 1400%Z = 1399%Z \/ 1400%Z = 1400%Z).
Proof.
  assert (H1 : (0 <= 700)%Z) by lia.
  assert (H2 : (0 <= 1399)%Z) by lia.
  assert (H3 : upscaled_size 700 1399 = inr (Some (1400, 700)%Z)).
  { vm_compute. reflexivity. }
  split; [exact H1|]. split; [exact H2|]. split; [exact H3|].
  exact (proj1 (proj2 (proj2 (proj2 (upscaled_size_bounds 700 1399))
                         1400%Z 700%Z H1 H2 H3))).
Defined.


(** ** The whole pipeline *)







(** ** Box geometry *)

